(** * Pad foundation sizing: the solver of [pad_app_1_2.py]

    Shallow embedding of [round_up], [solve_pad] and of the per-pad
    calculation block that consumes its result, followed by the properties
    the design document states about them.

    Numbers.  The program computes on Python floats.  The embedding comes
    in two readings of the same lines.

    - Exact arithmetic.  The floats are read as real numbers.  Every
      theorem stated on these definitions is a statement about the
      algorithm under exact arithmetic; it carries over to the program
      where binary64 rounding does not change which branch is taken.
      What Python signals by an exception is kept: a division whose
      divisor is zero raises [ZeroDivisionError], [math.sqrt] of a
      negative number raises [ValueError].

    - Binary64 (module [Binary64]).  The floats are the kernel's binary64
      numbers and every operation rounds as IEEE 754 does, so that the
      code can be run on given inputs to the last bit; [OverflowError] is
      kept as well.  The one operation IEEE 754 does not fix, [B ** 2],
      which CPython hands to the C library's [pow], is a parameter.  The
      two places where rounding decides the outcome against the design
      document, the rounding law and the monotonicity in the loads, are
      settled on this reading.

    In both readings the [while True] loop is run with a fuel; running out
    of fuel is the outcome [Diverge]. *)

From Stdlib Require Import Reals Lra Lia ZArith List Bool.
From Stdlib Require PrimFloat SpecFloat FloatOps.
Import ListNotations.

Open Scope R_scope.

(** ** Outcomes of a Python computation *)

Inductive exn : Type :=
| ZeroDivisionError
| ValueError.

Inductive outcome (A : Type) : Type :=
| Ok (a : A)
| Raise (e : exn)
| Diverge.

Arguments Ok {A} a.
Arguments Raise {A} e.
Arguments Diverge {A}.

Definition bind {A B : Type} (m : outcome A) (k : A -> outcome B) : outcome B :=
  match m with
  | Ok a => k a
  | Raise e => Raise e
  | Diverge => Diverge
  end.

Notation "x <- m ;; k" := (bind m (fun x => k))
  (at level 61, m at next level, right associativity).

Notation "' pat <- m ;; k" :=
  (bind m (fun x => match x with pat => k end))
  (at level 61, pat pattern, m at next level, right associativity).

(** ** The Python primitives the program uses *)

Module Py.

(** [x / y] on floats. *)
Definition truediv (x y : R) : outcome R :=
  if Req_dec_T y 0 then Raise ZeroDivisionError else Ok (x / y).

(** [math.sqrt(x)]. *)
Definition math_sqrt (x : R) : outcome R :=
  if Rlt_dec x 0 then Raise ValueError else Ok (sqrt x).

(** [max(a, b)]: the first argument unless the second is greater. *)
Definition max (a b : R) : R :=
  if Rgt_dec b a then b else a.

(** [math.ceil(x)] and [math.floor(x)], which return integers. *)
Definition math_ceil (x : R) : Z := Zceil x.
Definition math_floor (x : R) : Z := Zfloor x.

End Py.

(** ** Constants (lines 131-139) *)

Definition GAMMA_CONC : R := 24.0.

Definition gamma_G : R := 1.0.
Definition gamma_Q : R := 1.0.

Definition DEPTH_STEP : R := 0.05.
Definition DEPTH_SEARCH_LIMIT : R := 3.0.

Definition B_REFINE_STEP : R := 0.01.

(** ** Helpers (lines 145-149) *)

(** In exact arithmetic.  [Binary64.round_up] and [Binary64.round_down]
    are the same lines on floats, where the quotient is rounded before
    the ceiling or the floor is taken. *)

Definition round_up (value inc : R) : outcome R :=
  q <- Py.truediv value inc ;;
  Ok (IZR (Py.math_ceil q) * inc).

Definition round_down (value inc : R) : outcome R :=
  q <- Py.truediv value inc ;;
  Ok (IZR (Py.math_floor q) * inc).

(** ** [solve_pad] (lines 154-217) *)

(** In exact arithmetic.  [Binary64.solve_pad] is the same function on
    floats, where the test of the loop compares rounded numbers and
    [B ** 2] can overflow or underflow. *)

(** The dictionary [solve_pad] returns. *)
Record solution : Type := {
  B_opt : R;
  t : R;
  N_ck_initial : R;
  q_target : R
}.

(** The local variables one pass through the loop body assigns
    (lines 185-202). *)
Record trial : Type := {
  trial_t : R;
  trial_N_ck_sur_G : R;
  trial_N_ck_sur_Q : R;
  trial_W_pad : R;
  trial_N_ck : R;
  trial_q_ed : R;
  trial_util : R
}.

Section SolvePad.

(** The arguments of [solve_pad] its body reads. *)
Variables (G Q Sur_G Sur_Q q_allow target_utilisation min_width : R).
Variable include_self_weight : bool.

(** Lines 170-177: base load, target pressure and the seed width.
    Returns [(N_ck_initial, q_target, B)]. *)
Definition seed_width : outcome (R * R * R) :=
  let N_ck_initial := gamma_G * G + gamma_Q * Q in
  let q_target := target_utilisation * q_allow in
  A_req <- Py.truediv N_ck_initial q_target ;;
  s <- Py.math_sqrt A_req ;;
  let B := Py.max s min_width in
  Ok (N_ck_initial, q_target, B).

(** Lines 185-202: the body of the loop at trial width [B], up to the
    test. *)
Definition loop_body (B : R) : outcome trial :=
  let t := 0.5 * B in
  let N_ck_sur_G := Sur_G * B ^ 2 in
  let N_ck_sur_Q := Sur_Q * B ^ 2 in
  let W_pad := if include_self_weight then B ^ 2 * t * GAMMA_CONC else 0.0 in
  let N_ck :=
    gamma_G * (G + W_pad + N_ck_sur_G)
    + gamma_Q * (Q + N_ck_sur_Q) in
  q_ed <- Py.truediv N_ck (B ^ 2) ;;
  util <- Py.truediv q_ed q_allow ;;
  Ok {| trial_t := t;
        trial_N_ck_sur_G := N_ck_sur_G;
        trial_N_ck_sur_Q := N_ck_sur_Q;
        trial_W_pad := W_pad;
        trial_N_ck := N_ck;
        trial_q_ed := q_ed;
        trial_util := util |}.

(** Lines 183-207: [while True], with the loop state [B]; on [break] the
    current [B] and the [t] of the last pass are what the code goes on
    with. *)
Fixpoint refine (fuel : nat) (B : R) : outcome (R * R) :=
  match fuel with
  | O => Diverge
  | S fuel' =>
      l <- loop_body B ;;
      if Rgt_dec (trial_util l) target_utilisation
      then refine fuel' (B + B_REFINE_STEP)
      else Ok (B, trial_t l)
  end.

End SolvePad.

(** The whole function, with the arguments in the order of its signature;
    [min_depth] and [rounding] are "kept for interface consistency".  The
    caller tests the result against [None]; the function has a single
    [return], which builds the dictionary. *)
Definition solve_pad
           (G Q Sur_G Sur_Q q_allow target_utilisation min_width : R)
           (min_depth rounding : R)
           (include_self_weight : bool)
           (fuel : nat) : outcome (option solution) :=
  '(N_ck_initial, q_target, B0) <-
     seed_width G Q q_allow target_utilisation min_width ;;
  '(B, t) <-
     refine G Q Sur_G Sur_Q q_allow target_utilisation include_self_weight
            fuel B0 ;;
  Ok (Some {| B_opt := B;
              t := t;
              N_ck_initial := N_ck_initial;
              q_target := q_target |}).

(** ** The calculation block (lines 224-290) *)

(** The widgets of the input column, read once per run of the script. *)
Record inputs : Type := {
  in_q_allow : R;
  in_rounding : R;
  in_target_utilisation : R;
  in_min_width : R;
  in_min_depth : R;
  in_include_self_weight : bool
}.

(** The values the widgets let through (lines 63-90): the allowable
    pressure is at least 25, the rounding increment is picked from
    [0.10, 0.20], the target is a whole percentage from 50 to 95 in steps
    of 5, divided by 100, and the two minima are sliders. *)
Definition form_accepts (c : inputs) : Prop :=
  25.0 <= in_q_allow c /\
  (in_rounding c = 0.10 \/ in_rounding c = 0.20) /\
  (exists k : Z,
      (10 <= k <= 19)%Z /\ in_target_utilisation c = IZR (5 * k) / 100.0) /\
  0.5 <= in_min_width c <= 6.0 /\
  0.3 <= in_min_depth c <= 2.5.

(** The numeric entries of [pad["results"]]; the Markdown text stored next
    to them is presentation and is left out. *)
Record pad_results : Type := {
  B_final : R;
  t_round : R;
  q_ed : R;
  utilisation : R;
  N_ck : R;
  volume : R
}.

(** An entry of [st.session_state.pads]; the key ["results"] is absent until
    the calculation block has stored it. *)
Record pad : Type := {
  pad_id : Z;
  pad_G : R;
  pad_Q : R;
  pad_Sur_G : R;
  pad_Sur_Q : R;
  results : option pad_results
}.

Definition set_results (p : pad) (res : pad_results) : pad :=
  {| pad_id := pad_id p;
     pad_G := pad_G p;
     pad_Q := pad_Q p;
     pad_Sur_G := pad_Sur_G p;
     pad_Sur_Q := pad_Sur_Q p;
     results := Some res |}.

(** Lines 231-242: the call of [solve_pad] for one pad. *)
Definition call_solve_pad (fuel : nat) (c : inputs) (p : pad)
  : outcome (option solution) :=
  solve_pad (pad_G p) (pad_Q p) (pad_Sur_G p) (pad_Sur_Q p)
            (in_q_allow c) (in_target_utilisation c) (in_min_width c)
            (in_min_depth c) (in_rounding c) (in_include_self_weight c)
            fuel.

(** Lines 249-290: rounding and the checks redone at the rounded width. *)
Definition post_process (c : inputs) (p : pad) (result : solution)
  : outcome pad_results :=
  let B_opt := B_opt result in
  let N_ck_initial := N_ck_initial result in
  let q_target := q_target result in
  B_final <- round_up B_opt (in_rounding c) ;;
  let t_round := 0.5 * B_final in
  let W_pad :=
    if in_include_self_weight c
    then B_final ^ 2 * t_round * GAMMA_CONC else 0.0 in
  let N_ck_sur_G := pad_Sur_G p * B_final ^ 2 in
  let N_ck_sur_Q := pad_Sur_Q p * B_final ^ 2 in
  let N_ck_surcharge := N_ck_sur_G + N_ck_sur_Q in
  let N_ck_final :=
    gamma_G * (pad_G p + W_pad + N_ck_sur_G)
    + gamma_Q * (pad_Q p + N_ck_sur_Q) in
  q_ed <- Py.truediv N_ck_final (B_final ^ 2) ;;
  utilisation <- Py.truediv q_ed (in_q_allow c) ;;
  A0 <- Py.truediv N_ck_initial q_target ;;
  B0 <- Py.math_sqrt A0 ;;
  let volume := B_final ^ 2 * t_round in
  Ok {| B_final := B_final;
        t_round := t_round;
        q_ed := q_ed;
        utilisation := utilisation;
        N_ck := N_ck_final;
        volume := volume |}.

(** One pass of [for pad in st.session_state.pads]: the pad as the pass
    leaves it.  On [None] the pass reports an error and goes on to the next
    pad without touching this one. *)
Definition size_pad (fuel : nat) (c : inputs) (p : pad) : outcome pad :=
  result <- call_solve_pad fuel c p ;;
  match result with
  | None => Ok p
  | Some r =>
      res <- post_process c p r ;;
      Ok (set_results p res)
  end.

(** The whole loop over the session's pads; an exception ends the run. *)
Fixpoint calculations (fuel : nat) (c : inputs) (pads : list pad)
  : outcome (list pad) :=
  match pads with
  | [] => Ok []
  | p :: rest =>
      p' <- size_pad fuel c p ;;
      rest' <- calculations fuel c rest ;;
      Ok (p' :: rest')
  end.

(** ** The load accumulation as the design document words it *)

Module Design.

Definition selfWeight (includeSelfWeight : bool) (gamma_c B t : R) : R :=
  if includeSelfWeight then B ^ 2 * t * gamma_c else 0.

Definition designLoad (gG gQ G Q selfW surchargeDead surchargeLive B : R) : R :=
  gG * (G + selfW + surchargeDead * B ^ 2)
  + gQ * (Q + surchargeLive * B ^ 2).

Definition bearingPressure (N B : R) : R := N / B ^ 2.

(** [N_ck] at the geometry [(B, t)] with the constants of section 3. *)
Definition loadAt (includeSelfWeight : bool)
           (G Q surchargeDead surchargeLive B t : R) : R :=
  designLoad 1 1 G Q (selfWeight includeSelfWeight 24 B t)
             surchargeDead surchargeLive B.

End Design.

(** ** Closed forms used in the statements *)

(** The self-weight of the pad of width [B] and depth [B / 2], per unit
    of [B ^ 3]: [B ^ 2 * (0.5 * B) * GAMMA_CONC = 12 * B ^ 3]. *)
Definition sw_coeff (include_self_weight : bool) : R :=
  if include_self_weight then 12 else 0.

(** The load the loop accumulates at width [B], and the utilisation it
    compares with the target, as closed expressions. *)
Definition load_at (G Q Sur_G Sur_Q : R) (include_self_weight : bool)
           (B : R) : R :=
  G + Q + (Sur_G + Sur_Q) * B ^ 2 + sw_coeff include_self_weight * B ^ 3.

Definition util_at (G Q Sur_G Sur_Q q_allow : R) (include_self_weight : bool)
           (B : R) : R :=
  load_at G Q Sur_G Sur_Q include_self_weight B / B ^ 2 / q_allow.

(** ** Sample sessions *)

Module Sample.

(** The form as it opens. *)
Definition form : inputs :=
  {| in_q_allow := 150.0;
     in_rounding := 0.20;
     in_target_utilisation := 0.90;
     in_min_width := 1.5;
     in_min_depth := 0.75;
     in_include_self_weight := true |}.

(** A moderately loaded and a lightly loaded pad. *)
Definition pad1 : pad :=
  {| pad_id := 1; pad_G := 100.0; pad_Q := 50.0;
     pad_Sur_G := 0.0; pad_Sur_Q := 0.0; results := None |}.

Definition pad2 : pad :=
  {| pad_id := 2; pad_G := 10.0; pad_Q := 0.0;
     pad_Sur_G := 0.0; pad_Sur_Q := 0.0; results := None |}.

Definition solution1 : solution :=
  {| B_opt := 1.5; t := 0.75; N_ck_initial := 150; q_target := 135 |}.

Definition solution2 : solution :=
  {| B_opt := 1.5; t := 0.75; N_ck_initial := 10; q_target := 135 |}.

Definition results1 : pad_results :=
  {| B_final := 1.6; t_round := 0.8;
     q_ed := 199.152 / 2.56; utilisation := 199.152 / 384;
     N_ck := 199.152; volume := 2.048 |}.

Definition results2 : pad_results :=
  {| B_final := 1.6; t_round := 0.8;
     q_ed := 59.152 / 2.56; utilisation := 59.152 / 384;
     N_ck := 59.152; volume := 2.048 |}.

(** The form with a negative rounding increment, and what the block
    stores for [pad1] under it. *)
Definition form_neg_rounding : inputs :=
  {| in_q_allow := 150.0;
     in_rounding := -0.20;
     in_target_utilisation := 0.90;
     in_min_width := 1.5;
     in_min_depth := 0.75;
     in_include_self_weight := true |}.

Definition results_neg_rounding : pad_results :=
  {| B_final := 1.4; t_round := 0.7;
     q_ed := 182.928 / 1.96; utilisation := 182.928 / 294;
     N_ck := 182.928; volume := 1.372 |}.

(** A session in which the loop widens the seed once: surcharge, no
    self-weight. *)
Definition form3 : inputs :=
  {| in_q_allow := 200.0;
     in_rounding := 0.20;
     in_target_utilisation := 0.75;
     in_min_width := 2.0;
     in_min_depth := 0.75;
     in_include_self_weight := false |}.

Definition pad3 : pad :=
  {| pad_id := 3; pad_G := 404.0; pad_Q := 0.0;
     pad_Sur_G := 50.0; pad_Sur_Q := 0.0; results := None |}.

Definition solution3 : solution :=
  {| B_opt := 2.01; t := 1.005; N_ck_initial := 404; q_target := 150 |}.

(** The form as it opens but for the allowable pressure, set to the least
    value the widget accepts, and a pad with the default loads. *)
Definition form_soft : inputs :=
  {| in_q_allow := 25.0;
     in_rounding := 0.20;
     in_target_utilisation := 0.90;
     in_min_width := 1.5;
     in_min_depth := 0.75;
     in_include_self_weight := true |}.

Definition pad_default : pad :=
  {| pad_id := 1; pad_G := 750.0; pad_Q := 500.0;
     pad_Sur_G := 0.0; pad_Sur_Q := 0.0; results := None |}.

(** The form with the allowable pressure set to zero. *)
Definition form_zero_pressure : inputs :=
  {| in_q_allow := 0.0;
     in_rounding := 0.20;
     in_target_utilisation := 0.90;
     in_min_width := 1.5;
     in_min_depth := 0.75;
     in_include_self_weight := true |}.

End Sample.

(** ** Invalid constraints, in the words of the design document *)

(** "qAllow <= 0, targetUtilisation <= 0, or roundingIncrement <= 0". *)
Definition invalid_constraint (c : inputs) : Prop :=
  in_q_allow c <= 0 \/ in_target_utilisation c <= 0 \/ in_rounding c <= 0.

(** "Rejected before solving begins": the call for pad [p] raises in the
    statements that come before the loop. *)
Definition rejected_before_loop (c : inputs) (p : pad) : Prop :=
  exists e : exn,
    seed_width (pad_G p) (pad_Q p) (in_q_allow c) (in_target_utilisation c)
               (in_min_width c) = Raise e.

(** ** The session: adding pads and the summary table *)

(** Lines 49-50: the list a new session starts with. *)
Definition initial_pads : list pad := [].

(** Lines 114-123: what pressing "Add pad foundation" does to the list,
    with the four load inputs as they stand. *)
Definition add_pad (pads : list pad) (G Q Sur_G Sur_Q : R) : list pad :=
  pads ++ [ {| pad_id := Z.of_nat (length pads) + 1;
               pad_G := G;
               pad_Q := Q;
               pad_Sur_G := Sur_G;
               pad_Sur_Q := Sur_Q;
               results := None |} ].

(** One run of the script, as far as the session's pads go: the input
    column first, where the button may have been pressed, then the
    calculation block. *)
Definition script_run (fuel : nat) (c : inputs)
           (click : option (R * R * R * R)) (pads : list pad)
  : outcome (list pad) :=
  let pads :=
    match click with
    | Some (G, Q, Sur_G, Sur_Q) => add_pad pads G Q Sur_G Sur_Q
    | None => pads
    end in
  calculations fuel c pads.

(** A row of [summary_data] (lines 443-452): the numbers its cells show;
    the formatting of the cells to a fixed number of decimals is left
    out. *)
Record summary_row : Type := {
  row_pad_id : Z;
  row_width : R;
  row_depth : R;
  row_utilisation_pct : R;
  row_sls_load : R;
  row_volume : R
}.

(** Lines 440-452: the loop that builds [summary_data].  [None] stands for
    the [KeyError] of [pad["results"]] on a pad that has no results. *)
Fixpoint summary_data (pads : list pad) : option (list summary_row) :=
  match pads with
  | [] => Some []
  | p :: rest =>
      match results p with
      | None => None
      | Some res =>
          match summary_data rest with
          | None => None
          | Some rows =>
              Some ({| row_pad_id := pad_id p;
                       row_width := B_final res;
                       row_depth := t_round res;
                       row_utilisation_pct := utilisation res * 100;
                       row_sls_load := N_ck res;
                       row_volume := volume res |} :: rows)
          end
      end
  end.

(** Lines 435-454: what the results column shows. *)
Inductive results_view : Type :=
| No_pads_info
| Summary_table (rows : list summary_row).

Definition results_column (pads : list pad) : option results_view :=
  match pads with
  | [] => Some No_pads_info
  | _ :: _ => option_map Summary_table (summary_data pads)
  end.

(** The ids of a session run from 1 upwards in the order of the list. *)
Definition well_numbered (pads : list pad) : Prop :=
  map pad_id pads = map (fun i => Z.of_nat i) (seq 1 (length pads)).

(** ** Edge sessions *)

Module Edge.


(** A pad with no load at all. *)
Definition pad_unloaded : pad :=
  {| pad_id := 1; pad_G := 0.0; pad_Q := 0.0;
     pad_Sur_G := 0.0; pad_Sur_Q := 0.0; results := None |}.


(** A pad under net uplift. *)
Definition pad_uplift : pad :=
  {| pad_id := 2; pad_G := -100.0; pad_Q := 50.0;
     pad_Sur_G := 0.0; pad_Sur_Q := 0.0; results := None |}.

(** Rock, and a column load whose load-only width is exactly two
    metres; what the solver returns for them. *)
Definition form_rock : inputs :=
  {| in_q_allow := 3000.0;
     in_rounding := 0.20;
     in_target_utilisation := 0.90;
     in_min_width := 1.5;
     in_min_depth := 0.75;
     in_include_self_weight := true |}.

Definition pad_heavy : pad :=
  {| pad_id := 1; pad_G := 10800.0; pad_Q := 0.0;
     pad_Sur_G := 0.0; pad_Sur_Q := 0.0; results := None |}.

Definition solution_heavy : solution :=
  {| B_opt := 2.01; t := 1.005; N_ck_initial := 10800; q_target := 2700 |}.

End Edge.

(** ** The program on binary64 floats *)

(** The helpers and [solve_pad] once more, line by line as above, with
    Python's floats as they are: binary64 numbers whose operations round
    to nearest, ties to even.  A decimal literal stands for the float
    nearest to it, as in Python. *)

Module Binary64.

Import PrimFloat SpecFloat FloatOps.
Local Open Scope float_scope.
#[local] Set Warnings "-inexact-float".

(** The exceptions the arithmetic of the program can raise. *)
Inductive exn : Type :=
| ZeroDivisionError
| ValueError
| OverflowError.

Inductive outcome (A : Type) : Type :=
| Ok (a : A)
| Raise (e : exn)
| Diverge.

Arguments Ok {A} a.
Arguments Raise {A} e.
Arguments Diverge {A}.

Definition bind {A B : Type} (m : outcome A) (k : A -> outcome B) : outcome B :=
  match m with
  | Ok a => k a
  | Raise e => Raise e
  | Diverge => Diverge
  end.

Local Notation "x <- m ;; k" := (bind m (fun x => k)) : float_scope.

Local Notation "' pat <- m ;; k" :=
  (bind m (fun x => match x with pat => k end)) : float_scope.

(** [x / y]: a zero divisor, of either sign, raises; any other division
    is the IEEE 754 one. *)
Definition truediv (x y : float) : outcome float :=
  if y =? 0 then Raise ZeroDivisionError else Ok (x / y).

(** [math.sqrt(x)]: a domain error below zero; [-0.0] and NaN go
    through. *)
Definition math_sqrt (x : float) : outcome float :=
  if x <? 0 then Raise ValueError else Ok (sqrt x).

(** [max(a, b)]: the first argument unless the second is greater. *)
Definition max (a b : float) : float :=
  if a <? b then b else a.

(** [math.ceil(x)] and [math.floor(x)] return the exact integer; they
    refuse NaN with [ValueError] and an infinity with [OverflowError].  A
    finite float is [m * 2 ^ e] with the sign [s]. *)
Definition signed (s : bool) (m : positive) : Z :=
  if s then Z.neg m else Z.pos m.

Definition math_ceil (x : float) : outcome Z :=
  match Prim2SF x with
  | S754_nan => Raise ValueError
  | S754_infinity _ => Raise OverflowError
  | S754_zero _ => Ok 0%Z
  | S754_finite s m e => Ok (- Z.shiftl (- signed s m) e)%Z
  end.

Definition math_floor (x : float) : outcome Z :=
  match Prim2SF x with
  | S754_nan => Raise ValueError
  | S754_infinity _ => Raise OverflowError
  | S754_zero _ => Ok 0%Z
  | S754_finite s m e => Ok (Z.shiftl (signed s m) e)
  end.

(** An integer that meets a float in a product is first converted to the
    nearest float; one too large for a float raises [OverflowError]. *)
Definition float_of_int (z : Z) : outcome float :=
  let f := SF2Prim (binary_normalize prec emax z 0 false) in
  if is_infinity f then Raise OverflowError else Ok f.

(** Constants (lines 131-139). *)
Definition GAMMA_CONC : float := 24.0.

Definition gamma_G : float := 1.0.
Definition gamma_Q : float := 1.0.

Definition B_REFINE_STEP : float := 0.01.

(** Helpers (lines 145-149). *)
Definition round_up (value inc : float) : outcome float :=
  q <- truediv value inc ;;
  n <- math_ceil q ;;
  k <- float_of_int n ;;
  Ok (k * inc).

Definition round_down (value inc : float) : outcome float :=
  q <- truediv value inc ;;
  n <- math_floor q ;;
  k <- float_of_int n ;;
  Ok (k * inc).

(** The dictionary [solve_pad] returns. *)
Record solution : Type := {
  B_opt : float;
  t : float;
  N_ck_initial : float;
  q_target : float
}.

(** The local variables one pass through the loop body assigns
    (lines 185-202). *)
Record trial : Type := {
  trial_t : float;
  trial_N_ck_sur_G : float;
  trial_N_ck_sur_Q : float;
  trial_W_pad : float;
  trial_N_ck : float;
  trial_q_ed : float;
  trial_util : float
}.

Section SolvePad.

(** The C library's [pow]. *)
Variable libm_pow : float -> float -> float.

(** [x ** 2].  Python's float power settles NaN, the infinities, zero and
    one by itself and hands any other base, by its absolute value, to the
    C library; a result that overflows raises [OverflowError], one that
    underflows is returned as it is. *)
Definition pow2 (x : float) : outcome float :=
  if is_nan x then Ok x
  else if is_infinity x then Ok infinity
  else if x =? 0 then Ok 0
  else if abs x =? 1 then Ok 1
  else
    let r := libm_pow (abs x) 2 in
    if is_infinity r then Raise OverflowError else Ok r.

Variables (G Q Sur_G Sur_Q q_allow target_utilisation min_width : float).
Variable include_self_weight : bool.

(** Lines 170-177. *)
Definition seed_width : outcome (float * float * float) :=
  let N_ck_initial := gamma_G * G + gamma_Q * Q in
  let q_target := target_utilisation * q_allow in
  A_req <- truediv N_ck_initial q_target ;;
  s <- math_sqrt A_req ;;
  let B := max s min_width in
  Ok (N_ck_initial, q_target, B).

(** Lines 185-202; each [B ** 2] of the source is a call of its own. *)
Definition loop_body (B : float) : outcome trial :=
  let t := 0.5 * B in
  B2 <- pow2 B ;;
  let N_ck_sur_G := Sur_G * B2 in
  B2 <- pow2 B ;;
  let N_ck_sur_Q := Sur_Q * B2 in
  W_pad <- (if include_self_weight
            then B2 <- pow2 B ;; Ok (B2 * t * GAMMA_CONC)
            else Ok 0.0) ;;
  let N_ck :=
    gamma_G * (G + W_pad + N_ck_sur_G)
    + gamma_Q * (Q + N_ck_sur_Q) in
  B2 <- pow2 B ;;
  q_ed <- truediv N_ck B2 ;;
  util <- truediv q_ed q_allow ;;
  Ok {| trial_t := t;
        trial_N_ck_sur_G := N_ck_sur_G;
        trial_N_ck_sur_Q := N_ck_sur_Q;
        trial_W_pad := W_pad;
        trial_N_ck := N_ck;
        trial_q_ed := q_ed;
        trial_util := util |}.

(** Lines 183-207. *)
Fixpoint refine (fuel : nat) (B : float) : outcome (float * float) :=
  match fuel with
  | O => Diverge
  | S fuel' =>
      l <- loop_body B ;;
      if target_utilisation <? trial_util l
      then refine fuel' (B + B_REFINE_STEP)
      else Ok (B, trial_t l)
  end.

End SolvePad.

(** Lines 154-217. *)
Definition solve_pad (libm_pow : float -> float -> float)
           (G Q Sur_G Sur_Q q_allow target_utilisation min_width : float)
           (min_depth rounding : float)
           (include_self_weight : bool)
           (fuel : nat) : outcome (option solution) :=
  '(N_ck_initial, q_target, B0) <-
     seed_width G Q q_allow target_utilisation min_width ;;
  '(B, t) <-
     refine libm_pow G Q Sur_G Sur_Q q_allow target_utilisation
            include_self_weight fuel B0 ;;
  Ok (Some {| B_opt := B;
              t := t;
              N_ck_initial := N_ck_initial;
              q_target := q_target |}).

(** The width the loop tries in its pass [k + 1], should it get that far
    from the seed [B0]. *)
Definition trial_width (B0 : float) (k : nat) : float :=
  Nat.iter k (fun B => B + B_REFINE_STEP) B0.

(** A [pow] that is right for squares: the correctly rounded product of
    the base with itself. *)
Definition square_pow (x y : float) : float := x * x.

End Binary64.

(** * Properties *)

(** ** The primitives *)

Lemma bind_Ok_inv {A B : Type} (m : outcome A) (k : A -> outcome B) (b : B) :
  bind m k = Ok b -> exists a, m = Ok a /\ k a = Ok b.
Proof.
  destruct m as [a | e | ]; simpl; intros H; try discriminate.
  exists a; split; [reflexivity | exact H].
Qed.

Lemma Ok_inj {A : Type} (a b : A) : Ok a = Ok b -> a = b.
Proof. intros H. congruence. Qed.

Lemma truediv_ok (x y : R) : y <> 0 -> Py.truediv x y = Ok (x / y).
Proof.
  intros Hy. unfold Py.truediv.
  destruct (Req_dec_T y 0) as [E | _]; [contradiction | reflexivity].
Qed.

Lemma truediv_zero (x y : R) : y = 0 -> Py.truediv x y = Raise ZeroDivisionError.
Proof.
  intros Hy. unfold Py.truediv.
  destruct (Req_dec_T y 0) as [_ | N]; [reflexivity | contradiction].
Qed.

Lemma truediv_Ok_inv (x y q : R) :
  Py.truediv x y = Ok q -> y <> 0 /\ q = x / y.
Proof.
  unfold Py.truediv. destruct (Req_dec_T y 0) as [E | N]; intros H.
  - discriminate.
  - injection H as <-. split; [exact N | reflexivity].
Qed.

Lemma math_sqrt_ok (x : R) : 0 <= x -> Py.math_sqrt x = Ok (sqrt x).
Proof.
  intros Hx. unfold Py.math_sqrt.
  destruct (Rlt_dec x 0) as [L | _]; [lra | reflexivity].
Qed.

Lemma math_sqrt_neg (x : R) : x < 0 -> Py.math_sqrt x = Raise ValueError.
Proof.
  intros Hx. unfold Py.math_sqrt.
  destruct (Rlt_dec x 0) as [_ | N]; [reflexivity | lra].
Qed.

Lemma math_sqrt_Ok_inv (x s : R) :
  Py.math_sqrt x = Ok s -> 0 <= x /\ s = sqrt x.
Proof.
  unfold Py.math_sqrt. destruct (Rlt_dec x 0) as [L | N]; intros H.
  - discriminate.
  - injection H as <-. split; [lra | reflexivity].
Qed.

Lemma max_left (a b : R) : b <= a -> Py.max a b = a.
Proof.
  intros H. unfold Py.max. destruct (Rgt_dec b a) as [L | _]; [lra | reflexivity].
Qed.

Lemma max_right (a b : R) : a <= b -> Py.max a b = b.
Proof.
  intros H. unfold Py.max. destruct (Rgt_dec b a) as [_ | N]; [reflexivity | lra].
Qed.

Lemma max_ge_left (a b : R) : a <= Py.max a b.
Proof. unfold Py.max. destruct (Rgt_dec b a); lra. Qed.

Lemma max_ge_right (a b : R) : b <= Py.max a b.
Proof. unfold Py.max. destruct (Rgt_dec b a); lra. Qed.

Lemma max_cases (a b : R) :
  (b <= a /\ Py.max a b = a) \/ (a < b /\ Py.max a b = b).
Proof. unfold Py.max. destruct (Rgt_dec b a); [right | left]; split; lra. Qed.

Lemma math_ceil_IZR (z : Z) (x : R) :
  IZR z - 1 < x <= IZR z -> Py.math_ceil x = z.
Proof. intros H. unfold Py.math_ceil. apply Zceil_eq. exact H. Qed.

Lemma math_ceil_bound (x : R) :
  IZR (Py.math_ceil x) - 1 < x <= IZR (Py.math_ceil x).
Proof. unfold Py.math_ceil. apply Zceil_bound. Qed.

(** ** [round_up] *)

Lemma round_up_ok (value inc : R) :
  inc <> 0 ->
  round_up value inc = Ok (IZR (Py.math_ceil (value / inc)) * inc).
Proof.
  intros Hinc. unfold round_up. rewrite truediv_ok by exact Hinc. reflexivity.
Qed.

Lemma round_up_Ok_inv (value inc b : R) :
  round_up value inc = Ok b ->
  inc <> 0 /\ b = IZR (Py.math_ceil (value / inc)) * inc.
Proof.
  unfold round_up. intros H.
  apply bind_Ok_inv in H. destruct H as (q & Hq & Hb).
  apply truediv_Ok_inv in Hq. destruct Hq as [Hinc ->].
  injection Hb as <-. split; [exact Hinc | reflexivity].
Qed.

Lemma round_up_ge (value inc : R) :
  0 < inc -> value <= IZR (Py.math_ceil (value / inc)) * inc.
Proof.
  intros Hinc.
  destruct (math_ceil_bound (value / inc)) as [_ Hle].
  apply (Rmult_le_compat_r inc) in Hle; [ | lra].
  replace (value / inc * inc) with value in Hle by (field; lra).
  exact Hle.
Qed.

Lemma round_up_lt_next (value inc : R) :
  0 < inc -> IZR (Py.math_ceil (value / inc)) * inc < value + inc.
Proof.
  intros Hinc.
  destruct (math_ceil_bound (value / inc)) as [Hlt _].
  apply (Rmult_lt_compat_r inc) in Hlt; [ | lra].
  replace (value / inc * inc) with value in Hlt by (field; lra).
  lra.
Qed.

(** ** One pass of the loop *)

Section LoopFacts.

Variables (G Q Sur_G Sur_Q q_allow target_utilisation : R).
Variable include_self_weight : bool.

Abbreviation body := (loop_body G Q Sur_G Sur_Q q_allow include_self_weight).
Abbreviation loop :=
  (refine G Q Sur_G Sur_Q q_allow target_utilisation include_self_weight).

Abbreviation load := (load_at G Q Sur_G Sur_Q include_self_weight).
Abbreviation util := (util_at G Q Sur_G Sur_Q q_allow include_self_weight).

Lemma loop_body_Ok_inv (B : R) (l : trial) :
  body B = Ok l ->
  B <> 0 /\ q_allow <> 0 /\
  trial_t l = 0.5 * B /\
  trial_N_ck l = load B /\
  trial_q_ed l = load B / B ^ 2 /\
  trial_util l = util B.
Proof.
  unfold loop_body. intros H.
  apply bind_Ok_inv in H. destruct H as (q & Hq & H).
  apply bind_Ok_inv in H. destruct H as (u & Hu & H).
  apply truediv_Ok_inv in Hq. destruct Hq as [HB2 Hq].
  apply truediv_Ok_inv in Hu. destruct Hu as [Hqa Hu].
  injection H as <-. simpl.
  assert (HB : B <> 0) by (intros ->; apply HB2; lra).
  assert (HN : gamma_G *
                 (G + (if include_self_weight
                       then B ^ 2 * (0.5 * B) * GAMMA_CONC else 0.0)
                  + Sur_G * B ^ 2)
               + gamma_Q * (Q + Sur_Q * B ^ 2) = load B).
  { unfold load_at, sw_coeff, gamma_G, gamma_Q,
      GAMMA_CONC.
    destruct include_self_weight; lra. }
  rewrite HN in *. subst q u.
  repeat split; auto.
Qed.

Lemma loop_body_ok (B : R) :
  B <> 0 -> q_allow <> 0 ->
  exists l, body B = Ok l /\
            trial_t l = 0.5 * B /\
            trial_N_ck l = load B /\
            trial_q_ed l = load B / B ^ 2 /\
            trial_util l = util B.
Proof.
  intros HB Hqa.
  assert (HB2 : B ^ 2 <> 0) by (apply pow_nonzero; exact HB).
  unfold loop_body.
  rewrite truediv_ok by exact HB2. simpl.
  rewrite truediv_ok by exact Hqa. simpl.
  eexists. split; [reflexivity | ].
  assert (E := loop_body_Ok_inv B).
  unfold loop_body in E.
  rewrite truediv_ok in E by exact HB2. simpl in E.
  rewrite truediv_ok in E by exact Hqa. simpl in E.
  specialize (E _ eq_refl). simpl in E. tauto.
Qed.

Lemma loop_body_zero_width : body 0 = Raise ZeroDivisionError.
Proof.
  unfold loop_body. rewrite truediv_zero by lra. reflexivity.
Qed.

(** With a positive allowable pressure the test of the loop is a
    polynomial inequality in the width. *)
Lemma util_at_gt_iff (B : R) :
  0 < B -> 0 < q_allow ->
  (util B > target_utilisation <->
   load B > target_utilisation * q_allow * B ^ 2).
Proof.
  intros HB Hqa.
  assert (HB2 : 0 < B ^ 2) by (apply pow_lt; exact HB).
  unfold util_at.
  assert (E : load B / B ^ 2 / q_allow - target_utilisation
              = (load B - target_utilisation * q_allow * B ^ 2)
                / (B ^ 2 * q_allow)).
  { field. split; lra. }
  assert (HP : 0 < B ^ 2 * q_allow) by (apply Rmult_lt_0_compat; lra).
  split; intros H.
  - assert (H1 : 0 < (load B - target_utilisation * q_allow * B ^ 2)
                     / (B ^ 2 * q_allow)) by (rewrite <- E; lra).
    apply (Rmult_lt_compat_r (B ^ 2 * q_allow)) in H1; [ | exact HP].
    unfold Rdiv in H1. rewrite Rmult_assoc, Rinv_l in H1 by lra. lra.
  - assert (H1 : 0 < (load B - target_utilisation * q_allow * B ^ 2)
                     / (B ^ 2 * q_allow)).
    { apply Rdiv_lt_0_compat; lra. }
    rewrite <- E in H1. lra.
Qed.

Lemma util_at_le_iff (B : R) :
  0 < B -> 0 < q_allow ->
  (util B <= target_utilisation <->
   load B <= target_utilisation * q_allow * B ^ 2).
Proof.
  intros HB Hqa.
  destruct (util_at_gt_iff B HB Hqa) as [H1 H2].
  split; intros H.
  - destruct (Rle_or_lt (load B) (target_utilisation * q_allow * B ^ 2))
      as [L | L]; [exact L | ].
    apply Rlt_gt in L. apply H2 in L. lra.
  - destruct (Rle_or_lt (util B) target_utilisation) as [L | L];
      [exact L | ].
    apply Rlt_gt in L. apply H1 in L. lra.
Qed.

(** *** The loop *)

Lemma refine_continue (n : nat) (B : R) (l : trial) :
  body B = Ok l -> trial_util l > target_utilisation ->
  loop (S n) B = loop n (B + B_REFINE_STEP).
Proof.
  intros Hl Hu. simpl. rewrite Hl. simpl.
  destruct (Rgt_dec (trial_util l) target_utilisation) as [_ | N];
    [reflexivity | contradiction].
Qed.

Lemma refine_break (n : nat) (B : R) (l : trial) :
  body B = Ok l -> ~ trial_util l > target_utilisation ->
  loop (S n) B = Ok (B, trial_t l).
Proof.
  intros Hl Hu. simpl. rewrite Hl. simpl.
  destruct (Rgt_dec (trial_util l) target_utilisation) as [Y | _];
    [contradiction | reflexivity].
Qed.

(** What a run that leaves the loop went through: [k] passes that
    widened the pad, then one that met the target. *)
Lemma refine_Ok_inv (n : nat) :
  forall (B B' t' : R),
    loop n B = Ok (B', t') ->
    exists k : nat,
      (k < n)%nat /\
      B' = B + INR k * B_REFINE_STEP /\
      (exists l, body B' = Ok l /\ trial_t l = t' /\
                 ~ trial_util l > target_utilisation) /\
      (forall j : nat, (j < k)%nat ->
         exists l, body (B + INR j * B_REFINE_STEP) = Ok l /\
                   trial_util l > target_utilisation).
Proof.
  induction n as [ | n IH]; intros B B' t' H.
  - discriminate.
  - simpl in H. apply bind_Ok_inv in H. destruct H as (l & Hl & H).
    destruct (Rgt_dec (trial_util l) target_utilisation) as [Y | N].
    + apply IH in H. destruct H as (k & Hk & HB' & Hlast & Hbefore).
      exists (S k). split; [lia | ]. split.
      { rewrite S_INR. lra. }
      split; [exact Hlast | ].
      intros j Hj. destruct j as [ | j].
      * exists l. simpl. rewrite Rmult_0_l, Rplus_0_r. split; assumption.
      * destruct (Hbefore j) as (l' & Hl' & Hu'); [lia | ].
        exists l'. split; [ | exact Hu'].
        rewrite S_INR.
        replace (B + (INR j + 1) * B_REFINE_STEP)
          with (B + B_REFINE_STEP + INR j * B_REFINE_STEP) by lra.
        exact Hl'.
    + injection H as <- <-.
      exists 0%nat. split; [lia | ]. split.
      { simpl. lra. }
      split.
      * exists l. replace (B + INR 0 * B_REFINE_STEP) with B by (simpl; lra).
        auto.
      * intros j Hj. lia.
Qed.

(** More fuel does not change the result of a run that left the loop. *)
Lemma refine_fuel_mono (n : nat) :
  forall (m : nat) (B : R) (r : R * R),
    loop n B = Ok r -> (n <= m)%nat -> loop m B = Ok r.
Proof.
  induction n as [ | n IH]; intros m B r H Hle.
  - discriminate.
  - destruct m as [ | m]; [lia | ].
    simpl in H |- *.
    destruct (body B) as [l | e | ]; simpl in H |- *; try discriminate.
    destruct (Rgt_dec (trial_util l) target_utilisation).
    + apply IH; [exact H | lia].
    + exact H.
Qed.

Lemma refine_fuel_det (n m : nat) (B : R) (r r' : R * R) :
  loop n B = Ok r -> loop m B = Ok r' -> r = r'.
Proof.
  intros Hn Hm.
  destruct (Nat.le_ge_cases n m) as [L | L].
  - rewrite (refine_fuel_mono n m B r Hn L) in Hm. congruence.
  - rewrite (refine_fuel_mono m n B r' Hm L) in Hn. congruence.
Qed.

End LoopFacts.

(** ** [solve_pad] as a whole *)

Section SolveFacts.

Variables (G Q Sur_G Sur_Q q_allow target_utilisation min_width : R).
Variables (min_depth rounding : R).
Variable include_self_weight : bool.

Abbreviation seed := (seed_width G Q q_allow target_utilisation min_width).
Abbreviation pass := (loop_body G Q Sur_G Sur_Q q_allow include_self_weight).
Abbreviation run :=
  (refine G Q Sur_G Sur_Q q_allow target_utilisation include_self_weight).
Abbreviation solve :=
  (solve_pad G Q Sur_G Sur_Q q_allow target_utilisation min_width
             min_depth rounding include_self_weight).

Lemma seed_width_ok :
  target_utilisation * q_allow <> 0 ->
  0 <= (gamma_G * G + gamma_Q * Q) / (target_utilisation * q_allow) ->
  seed = Ok (gamma_G * G + gamma_Q * Q,
             target_utilisation * q_allow,
             Py.max (sqrt ((gamma_G * G + gamma_Q * Q)
                           / (target_utilisation * q_allow)))
                    min_width).
Proof.
  intros Hqt HA. unfold seed_width.
  rewrite truediv_ok by exact Hqt. simpl.
  rewrite math_sqrt_ok by exact HA. reflexivity.
Qed.

Lemma seed_width_Ok_inv (N qt B0 : R) :
  seed = Ok (N, qt, B0) ->
  N = gamma_G * G + gamma_Q * Q /\
  qt = target_utilisation * q_allow /\
  qt <> 0 /\ 0 <= N / qt /\
  B0 = Py.max (sqrt (N / qt)) min_width.
Proof.
  unfold seed_width. intros H.
  apply bind_Ok_inv in H. destruct H as (A & HA & H).
  apply bind_Ok_inv in H. destruct H as (s & Hs & H).
  apply truediv_Ok_inv in HA. destruct HA as [Hqt ->].
  apply math_sqrt_Ok_inv in Hs. destruct Hs as [Hpos ->].
  injection H as <- <- <-. repeat split; auto.
Qed.

(** The seed is never negative, whatever [min_width] is. *)
Lemma seed_width_nonneg (N qt B0 : R) :
  seed = Ok (N, qt, B0) -> 0 <= B0.
Proof.
  intros H. apply seed_width_Ok_inv in H.
  destruct H as (_ & _ & _ & _ & ->).
  eapply Rle_trans; [apply sqrt_pos | apply max_ge_left].
Qed.

Lemma solve_pad_Ok_inv (fuel : nat) (o : option solution) :
  solve fuel = Ok o ->
  exists N qt B0 B t',
    seed = Ok (N, qt, B0) /\
    run fuel B0 = Ok (B, t') /\
    o = Some {| B_opt := B; t := t'; N_ck_initial := N; q_target := qt |}.
Proof.
  unfold solve_pad. intros H.
  apply bind_Ok_inv in H. destruct H as ([[N qt] B0] & Hseed & H).
  apply bind_Ok_inv in H. destruct H as ([B t'] & Hrun & H).
  injection H as <-.
  exists N, qt, B0, B, t'. auto.
Qed.

(** The [None] the caller tests for is never returned. *)
Lemma solve_pad_never_None (fuel : nat) : solve fuel <> Ok None.
Proof.
  intros H. apply solve_pad_Ok_inv in H.
  destruct H as (N & qt & B0 & B & t' & _ & _ & H). discriminate.
Qed.

(** An exception of the seed computation is the outcome of the call,
    whatever the fuel: the loop is not reached. *)
Lemma solve_pad_seed_raises (e : exn) (fuel : nat) :
  seed = Raise e -> solve fuel = Raise e.
Proof. intros H. unfold solve_pad. rewrite H. reflexivity. Qed.

Lemma solve_pad_fuel_mono (n m : nat) (o : option solution) :
  solve n = Ok o -> (n <= m)%nat -> solve m = Ok o.
Proof.
  intros H Hle. apply solve_pad_Ok_inv in H.
  destruct H as (N & qt & B0 & B & t' & Hseed & Hrun & ->).
  unfold solve_pad. rewrite Hseed. simpl.
  rewrite (refine_fuel_mono _ _ _ _ _ _ _ n m B0 (B, t') Hrun Hle).
  reflexivity.
Qed.

Lemma solve_pad_fuel_det (n m : nat) (o o' : option solution) :
  solve n = Ok o -> solve m = Ok o' -> o = o'.
Proof.
  intros Hn Hm.
  destruct (Nat.le_ge_cases n m) as [L | L].
  - rewrite (solve_pad_fuel_mono n m o Hn L) in Hm. congruence.
  - rewrite (solve_pad_fuel_mono m n o' Hm L) in Hn. congruence.
Qed.

(** A seed that already meets the target is returned after one pass. *)
Lemma solve_pad_first_pass (N qt B0 : R) (fuel : nat) :
  seed = Ok (N, qt, B0) ->
  0 < B0 -> 0 < q_allow ->
  load_at G Q Sur_G Sur_Q include_self_weight B0
    <= target_utilisation * q_allow * B0 ^ 2 ->
  solve (S fuel)
  = Ok (Some {| B_opt := B0; t := 0.5 * B0;
                N_ck_initial := N; q_target := qt |}).
Proof.
  intros Hseed HB Hqa Hle.
  destruct (loop_body_ok G Q Sur_G Sur_Q q_allow include_self_weight B0)
    as (l & Hl & Ht & _ & _ & Hu); [lra | lra | ].
  unfold solve_pad. rewrite Hseed. cbn [bind].
  rewrite (refine_break _ _ _ _ _ _ _ fuel B0 l Hl).
  - cbn [bind]. rewrite Ht. reflexivity.
  - rewrite Hu. intros Hgt.
    apply util_at_gt_iff in Hgt; [lra | exact HB | exact Hqa].
Qed.

End SolveFacts.

(** ** The calculation block *)

Section BlockFacts.

Variable c : inputs.
Variable p : pad.

Abbreviation rounded B := (IZR (Py.math_ceil (B / in_rounding c)) * in_rounding c).
Abbreviation final_load :=
  (load_at (pad_G p) (pad_Q p) (pad_Sur_G p) (pad_Sur_Q p)
           (in_include_self_weight c)).
Abbreviation final_util :=
  (util_at (pad_G p) (pad_Q p) (pad_Sur_G p) (pad_Sur_Q p) (in_q_allow c)
           (in_include_self_weight c)).

Lemma post_process_Ok_inv (r : solution) (res : pad_results) :
  post_process c p r = Ok res ->
  in_rounding c <> 0 /\
  B_final res = rounded (B_opt r) /\
  B_final res <> 0 /\
  in_q_allow c <> 0 /\
  t_round res = 0.5 * B_final res /\
  N_ck res = final_load (B_final res) /\
  q_ed res = N_ck res / B_final res ^ 2 /\
  utilisation res = final_util (B_final res) /\
  volume res = B_final res ^ 2 * t_round res.
Proof.
  unfold post_process. intros H.
  apply bind_Ok_inv in H. destruct H as (Bf & HBf & H).
  apply bind_Ok_inv in H. destruct H as (q & Hq & H).
  apply bind_Ok_inv in H. destruct H as (u & Hu & H).
  apply bind_Ok_inv in H. destruct H as (A0 & HA0 & H).
  apply bind_Ok_inv in H. destruct H as (B0 & HB0 & H).
  apply round_up_Ok_inv in HBf. destruct HBf as [Hinc HBf].
  apply truediv_Ok_inv in Hq. destruct Hq as [HB2 Hq].
  apply truediv_Ok_inv in Hu. destruct Hu as [Hqa Hu].
  apply Ok_inj in H. rewrite <- H. clear H.
  cbv beta iota delta [B_final t_round q_ed utilisation N_ck volume].
  assert (HB : Bf <> 0) by (intros E; apply HB2; rewrite E; lra).
  assert (HN : gamma_G *
                 (pad_G p
                  + (if in_include_self_weight c
                     then Bf ^ 2 * (0.5 * Bf) * GAMMA_CONC else 0.0)
                  + pad_Sur_G p * Bf ^ 2)
               + gamma_Q * (pad_Q p + pad_Sur_Q p * Bf ^ 2) = final_load Bf).
  { unfold load_at, sw_coeff, gamma_G, gamma_Q, GAMMA_CONC.
    destruct (in_include_self_weight c); lra. }
  rewrite HN in *. unfold util_at. subst q u.
  repeat split; auto.
Qed.

Lemma post_process_ok (r : solution) :
  in_rounding c <> 0 ->
  rounded (B_opt r) <> 0 ->
  in_q_allow c <> 0 ->
  q_target r <> 0 ->
  0 <= N_ck_initial r / q_target r ->
  exists res, post_process c p r = Ok res.
Proof.
  intros Hinc HB Hqa Hqt HA.
  assert (HB2 : rounded (B_opt r) ^ 2 <> 0) by (apply pow_nonzero; exact HB).
  unfold post_process.
  rewrite round_up_ok by exact Hinc. cbn [bind].
  rewrite truediv_ok by exact HB2. cbn [bind].
  rewrite truediv_ok by exact Hqa. cbn [bind].
  rewrite truediv_ok by exact Hqt. cbn [bind].
  rewrite math_sqrt_ok by exact HA. cbn [bind].
  eexists. reflexivity.
Qed.

Lemma size_pad_Ok_inv (fuel : nat) (p' : pad) :
  size_pad fuel c p = Ok p' ->
  exists r res,
    call_solve_pad fuel c p = Ok (Some r) /\
    post_process c p r = Ok res /\
    p' = set_results p res.
Proof.
  unfold size_pad. intros H.
  apply bind_Ok_inv in H. destruct H as (o & Ho & H).
  destruct o as [r | ].
  - apply bind_Ok_inv in H. destruct H as (res & Hres & H).
    injection H as <-. exists r, res. auto.
  - exfalso. unfold call_solve_pad in Ho.
    exact (solve_pad_never_None _ _ _ _ _ _ _ _ _ _ _ Ho).
Qed.

Lemma size_pad_ok (fuel : nat) (r : solution) (res : pad_results) :
  call_solve_pad fuel c p = Ok (Some r) ->
  post_process c p r = Ok res ->
  size_pad fuel c p = Ok (set_results p res).
Proof.
  intros Hr Hres. unfold size_pad. rewrite Hr. cbn [bind].
  rewrite Hres. reflexivity.
Qed.

End BlockFacts.

(** ** The sample sessions, run *)

Lemma sqrt_le_of_sq (x b : R) : 0 <= b -> x <= b * b -> sqrt x <= b.
Proof.
  intros Hb Hx. rewrite <- (sqrt_square b Hb). apply sqrt_le_1_alt. exact Hx.
Qed.

Ltac unfold_consts :=
  unfold gamma_G, gamma_Q, GAMMA_CONC, B_REFINE_STEP in *.

Ltac sample_seed :=
  rewrite seed_width_ok by (unfold_consts; lra);
  repeat f_equal; try (unfold_consts; lra);
  apply max_right; apply sqrt_le_of_sq; unfold_consts; lra.

Lemma seed_pad1 : seed_width 100.0 50.0 150.0 0.90 1.5 = Ok (150, 135, 1.5).
Proof. sample_seed. Qed.

Lemma seed_pad2 : seed_width 10.0 0.0 150.0 0.90 1.5 = Ok (10, 135, 1.5).
Proof. sample_seed. Qed.

Lemma seed_pad3 : seed_width 404.0 0.0 200.0 0.75 2.0 = Ok (404, 150, 2.0).
Proof. sample_seed. Qed.

Lemma solve_pad1 :
  call_solve_pad 1 Sample.form Sample.pad1 = Ok (Some Sample.solution1).
Proof.
  unfold call_solve_pad. simpl.
  rewrite (solve_pad_first_pass _ _ _ _ _ _ _ _ _ _ _ _ _ 0 seed_pad1).
  - unfold Sample.solution1. repeat f_equal. lra.
  - lra.
  - lra.
  - unfold load_at, sw_coeff. lra.
Qed.

Lemma solve_pad2 :
  call_solve_pad 1 Sample.form Sample.pad2 = Ok (Some Sample.solution2).
Proof.
  unfold call_solve_pad. simpl.
  rewrite (solve_pad_first_pass _ _ _ _ _ _ _ _ _ _ _ _ _ 0 seed_pad2).
  - unfold Sample.solution2. repeat f_equal. lra.
  - lra.
  - lra.
  - unfold load_at, sw_coeff. lra.
Qed.

Lemma post_process_at (c : inputs) (p : pad) (r : solution) (Bf : R) :
  in_rounding c <> 0 ->
  IZR (Py.math_ceil (B_opt r / in_rounding c)) * in_rounding c = Bf ->
  Bf <> 0 ->
  in_q_allow c <> 0 ->
  q_target r <> 0 ->
  0 <= N_ck_initial r / q_target r ->
  post_process c p r
  = Ok {| B_final := Bf;
          t_round := 0.5 * Bf;
          q_ed := load_at (pad_G p) (pad_Q p) (pad_Sur_G p) (pad_Sur_Q p)
                          (in_include_self_weight c) Bf / Bf ^ 2;
          utilisation := util_at (pad_G p) (pad_Q p) (pad_Sur_G p)
                                 (pad_Sur_Q p) (in_q_allow c)
                                 (in_include_self_weight c) Bf;
          N_ck := load_at (pad_G p) (pad_Q p) (pad_Sur_G p) (pad_Sur_Q p)
                          (in_include_self_weight c) Bf;
          volume := Bf ^ 2 * (0.5 * Bf) |}.
Proof.
  intros Hinc HBf HB Hqa Hqt HA.
  destruct (post_process_ok c p r) as [res Hres]; auto.
  { rewrite HBf. exact HB. }
  rewrite Hres. f_equal.
  apply post_process_Ok_inv in Hres.
  destruct Hres as (_ & E1 & _ & _ & E2 & E3 & E4 & E5 & E6).
  destruct res as [b tr q u n v]. simpl in E1, E2, E3, E4, E5, E6.
  rewrite HBf in E1. subst. reflexivity.
Qed.

Ltac sample_ceil z :=
  rewrite (math_ceil_IZR z) by lra; lra.

Lemma size_pad1 :
  size_pad 1 Sample.form Sample.pad1
  = Ok (set_results Sample.pad1 Sample.results1).
Proof.
  apply (size_pad_ok _ _ _ Sample.solution1); [exact solve_pad1 | ].
  rewrite (post_process_at _ _ _ 1.6); simpl.
  - apply f_equal. unfold Sample.results1, util_at, load_at, sw_coeff.
    f_equal; lra.
  - lra.
  - sample_ceil 8%Z.
  - lra.
  - lra.
  - lra.
  - lra.
Qed.

Lemma size_pad2 :
  size_pad 1 Sample.form Sample.pad2
  = Ok (set_results Sample.pad2 Sample.results2).
Proof.
  apply (size_pad_ok _ _ _ Sample.solution2); [exact solve_pad2 | ].
  rewrite (post_process_at _ _ _ 1.6); simpl.
  - apply f_equal. unfold Sample.results2, util_at, load_at, sw_coeff.
    f_equal; lra.
  - lra.
  - sample_ceil 8%Z.
  - lra.
  - lra.
  - lra.
  - lra.
Qed.

Lemma solve_pad_neg_rounding :
  call_solve_pad 1 Sample.form_neg_rounding Sample.pad1
  = Ok (Some Sample.solution1).
Proof. exact solve_pad1. Qed.

Lemma size_pad_neg_rounding :
  size_pad 1 Sample.form_neg_rounding Sample.pad1
  = Ok (set_results Sample.pad1 Sample.results_neg_rounding).
Proof.
  apply (size_pad_ok _ _ _ Sample.solution1);
    [exact solve_pad_neg_rounding | ].
  rewrite (post_process_at _ _ _ 1.4); simpl.
  - apply f_equal.
    unfold Sample.results_neg_rounding, util_at, load_at, sw_coeff.
    f_equal; lra.
  - lra.
  - sample_ceil (-7)%Z.
  - lra.
  - lra.
  - lra.
  - lra.
Qed.

Lemma solve_pad3 :
  call_solve_pad 2 Sample.form3 Sample.pad3 = Ok (Some Sample.solution3).
Proof.
  unfold call_solve_pad, solve_pad, Sample.form3, Sample.pad3.
  cbn [pad_G pad_Q pad_Sur_G pad_Sur_Q in_q_allow in_target_utilisation
       in_min_width in_include_self_weight].
  rewrite seed_pad3. cbn [bind].
  destruct (loop_body_ok 404.0 0.0 50.0 0.0 200.0 false 2.0)
    as (l0 & Hl0 & _ & _ & _ & Hu0); [lra | lra | ].
  rewrite (refine_continue _ _ _ _ _ _ _ 1 2.0 l0 Hl0).
  - destruct (loop_body_ok 404.0 0.0 50.0 0.0 200.0 false
                           (2.0 + B_REFINE_STEP))
      as (l1 & Hl1 & Ht1 & _ & _ & Hu1);
      [unfold_consts; lra | lra | ].
    rewrite (refine_break _ _ _ _ _ _ _ 0 _ l1 Hl1).
    + cbn [bind]. rewrite Ht1. do 2 apply f_equal.
      unfold Sample.solution3. unfold_consts. f_equal; lra.
    + rewrite Hu1. intros Hgt.
      apply util_at_gt_iff in Hgt; [ | unfold_consts; lra | lra].
      unfold load_at, sw_coeff in Hgt. unfold_consts. lra.
  - rewrite Hu0. apply util_at_gt_iff; [lra | lra | ].
    unfold load_at, sw_coeff. lra.
Qed.

(** ** Runs that never leave the loop *)

Section Divergence.

Variables (G Q Sur_G Sur_Q q_allow target_utilisation : R).
Variable include_self_weight : bool.

(** If from some width on no width meets the target, the loop started
    there uses up any fuel. *)
Lemma refine_diverges (B0 : R) :
  0 < B0 -> 0 < q_allow ->
  (forall B, B0 <= B ->
     load_at G Q Sur_G Sur_Q include_self_weight B
     > target_utilisation * q_allow * B ^ 2) ->
  forall fuel : nat,
    refine G Q Sur_G Sur_Q q_allow target_utilisation include_self_weight
           fuel B0 = Diverge.
Proof.
  intros HB0 Hqa Hall fuel. revert B0 HB0 Hall.
  induction fuel as [ | n IH]; intros B0 HB0 Hall.
  - reflexivity.
  - destruct (loop_body_ok G Q Sur_G Sur_Q q_allow include_self_weight B0)
      as (l & Hl & _ & _ & _ & Hu); [lra | lra | ].
    rewrite (refine_continue _ _ _ _ _ _ _ n B0 l Hl).
    + apply IH.
      * unfold_consts. lra.
      * intros B HB. apply Hall. unfold_consts. lra.
    + rewrite Hu. apply util_at_gt_iff; [exact HB0 | exact Hqa | ].
      apply Hall. lra.
Qed.

End Divergence.

(** ** Converged runs *)

Section Converged.

Variables (G Q Sur_G Sur_Q q_allow target_utilisation min_width : R).
Variables (min_depth rounding : R).
Variable include_self_weight : bool.

(** Everything a returned dictionary tells about the run that built it. *)
Lemma solve_pad_converged (fuel : nat) (r : solution) :
  solve_pad G Q Sur_G Sur_Q q_allow target_utilisation min_width
            min_depth rounding include_self_weight fuel = Ok (Some r) ->
  exists (B0 : R) (k : nat) (l : trial),
    seed_width G Q q_allow target_utilisation min_width
    = Ok (N_ck_initial r, q_target r, B0) /\
    (k < fuel)%nat /\
    0 <= B0 /\
    B_opt r = B0 + INR k * B_REFINE_STEP /\
    0 < B_opt r /\
    loop_body G Q Sur_G Sur_Q q_allow include_self_weight (B_opt r) = Ok l /\
    trial_t l = t r /\
    trial_util l <= target_utilisation /\
    (forall j : nat, (j < k)%nat ->
       exists l',
         loop_body G Q Sur_G Sur_Q q_allow include_self_weight
                   (B0 + INR j * B_REFINE_STEP) = Ok l' /\
         trial_util l' > target_utilisation).
Proof.
  intros H. apply solve_pad_Ok_inv in H.
  destruct H as (N & qt & B0 & B & t' & Hseed & Hrun & Hr).
  injection Hr as ->. simpl.
  assert (HB0 : 0 <= B0) by (eapply seed_width_nonneg; exact Hseed).
  apply refine_Ok_inv in Hrun.
  destruct Hrun as (k & Hk & HB & (l & Hl & Ht & Hu) & Hbefore).
  exists B0, k, l.
  assert (Hne : B <> 0).
  { apply loop_body_Ok_inv in Hl. tauto. }
  assert (Hstep : 0 <= INR k * B_REFINE_STEP).
  { apply Rmult_le_pos; [apply pos_INR | unfold_consts; lra]. }
  repeat split; auto; try lra.
Qed.

End Converged.

Lemma call_solve_pad_converged (fuel : nat) (c : inputs) (p : pad)
      (r : solution) :
  call_solve_pad fuel c p = Ok (Some r) ->
  0 < B_opt r /\ t r = 0.5 * B_opt r /\ in_q_allow c <> 0 /\
  q_target r <> 0 /\ 0 <= N_ck_initial r / q_target r /\
  exists l,
    loop_body (pad_G p) (pad_Q p) (pad_Sur_G p) (pad_Sur_Q p)
              (in_q_allow c) (in_include_self_weight c) (B_opt r) = Ok l /\
    trial_util l <= in_target_utilisation c.
Proof.
  unfold call_solve_pad. intros H.
  apply solve_pad_converged in H.
  destruct H as (B0 & k & l & Hseed & _ & _ & _ & Hpos & Hl & Ht & Hu & _).
  apply seed_width_Ok_inv in Hseed.
  destruct Hseed as (_ & _ & Hqt & HA & _).
  pose proof (loop_body_Ok_inv _ _ _ _ _ _ _ _ Hl) as (_ & Hqa & Ht' & _).
  repeat split; auto.
  - rewrite <- Ht. exact Ht'.
  - exists l. auto.
Qed.

(** ** Runs on binary64 floats *)

Section Binary64Facts.

Import PrimFloat.
Local Open Scope float_scope.

(** A pass of the loop asks the C library for one square only, that of
    the trial width; so does a whole run, for the trial widths it gets
    to. *)
Lemma binary64_loop_body_ext (pow1 pow2 : float -> float -> float)
      (G Q Sur_G Sur_Q q_allow : float) (include_self_weight : bool)
      (B : float) :
  pow1 (abs B) 2 = pow2 (abs B) 2 ->
  Binary64.loop_body pow1 G Q Sur_G Sur_Q q_allow include_self_weight B
  = Binary64.loop_body pow2 G Q Sur_G Sur_Q q_allow include_self_weight B.
Proof.
  intros H. unfold Binary64.loop_body, Binary64.pow2. cbv zeta.
  rewrite H. reflexivity.
Qed.

Lemma binary64_refine_ext (pow1 pow2 : float -> float -> float)
      (G Q Sur_G Sur_Q q_allow target_utilisation : float)
      (include_self_weight : bool) (fuel : nat) :
  forall B : float,
    (forall k, (k < fuel)%nat ->
       pow1 (abs (Binary64.trial_width B k)) 2
       = pow2 (abs (Binary64.trial_width B k)) 2) ->
    Binary64.refine pow1 G Q Sur_G Sur_Q q_allow target_utilisation
                    include_self_weight fuel B
    = Binary64.refine pow2 G Q Sur_G Sur_Q q_allow target_utilisation
                      include_self_weight fuel B.
Proof.
  induction fuel as [ | n IH]; intros B H; [reflexivity | ].
  cbn [Binary64.refine].
  rewrite (binary64_loop_body_ext pow1 pow2) by (apply (H 0%nat); lia).
  destruct (Binary64.loop_body pow2 G Q Sur_G Sur_Q q_allow
                               include_self_weight B)
    as [l | e | ]; cbn [Binary64.bind]; try reflexivity.
  destruct (target_utilisation <? Binary64.trial_util l); [ | reflexivity].
  apply IH. intros k Hk.
  specialize (H (S k)). unfold Binary64.trial_width in *.
  rewrite Nat.iter_succ_r in H. apply H. lia.
Qed.

End Binary64Facts.

(** * The claims *)

(** ** C9: unused arguments *)

(** C9. The arguments [min_depth] and [rounding] of [solve_pad] have no
    influence on its outcome: two calls that differ only in them return
    the same [B_opt], [t], [N_ck_initial] and [q_target] (or raise the same
    exception, or both fail to leave the loop).  In particular no minimum
    depth is enforced in the continuous solve. *)
Theorem solve_pad_ignores_min_depth_and_rounding
        (G Q Sur_G Sur_Q q_allow target_utilisation min_width : R)
        (min_depth rounding min_depth' rounding' : R)
        (include_self_weight : bool) (fuel : nat) :
  solve_pad G Q Sur_G Sur_Q q_allow target_utilisation min_width
            min_depth rounding include_self_weight fuel
  = solve_pad G Q Sur_G Sur_Q q_allow target_utilisation min_width
              min_depth' rounding' include_self_weight fuel.
Proof. reflexivity. Qed.

(** ** C2: the geometry rule *)

(** C2. On every input on which the solver converges, the depth it returns
    is half the width it returns, [t = B_opt / 2], and the depth stored for
    the rounded pad is half the rounded width, [t_round = B_final / 2],
    where [B_final] is [B_opt] rounded: the depth is derived from the
    rounded width and is not rounded on its own. *)
Theorem geometry_rule (fuel : nat) (c : inputs) (p p' : pad) (r : solution) :
  call_solve_pad fuel c p = Ok (Some r) ->
  size_pad fuel c p = Ok p' ->
  t r = B_opt r / 2 /\
  exists res,
    results p' = Some res /\
    round_up (B_opt r) (in_rounding c) = Ok (B_final res) /\
    t_round res = B_final res / 2.
Proof.
  intros Hr Hp.
  split.
  - apply call_solve_pad_converged in Hr. destruct Hr as (_ & Ht & _). lra.
  - apply size_pad_Ok_inv in Hp. destruct Hp as (r0 & res & Hr0 & Hres & ->).
    assert (r0 = r) by congruence. subst r0.
    apply post_process_Ok_inv in Hres.
    destruct Hres as (Hinc & HB & _ & _ & Ht & _).
    exists res. split; [reflexivity | ]. split.
    + rewrite round_up_ok by exact Hinc. rewrite HB. reflexivity.
    + lra.
Qed.

Lemma geometry_rule_witness :
  call_solve_pad 1 Sample.form Sample.pad1 = Ok (Some Sample.solution1) /\
  size_pad 1 Sample.form Sample.pad1
  = Ok (set_results Sample.pad1 Sample.results1) /\
  t Sample.solution1 = B_opt Sample.solution1 / 2 /\
  exists res,
    results (set_results Sample.pad1 Sample.results1) = Some res /\
    round_up (B_opt Sample.solution1) (in_rounding Sample.form)
    = Ok (B_final res) /\
    t_round res = B_final res / 2.
Proof.
  split; [exact solve_pad1 | ].
  split; [exact size_pad1 | ].
  exact (geometry_rule 1 Sample.form Sample.pad1 _ Sample.solution1
                       solve_pad1 size_pad1).
Defined.

(** ** C4: the convergence bound *)

(** C4. Whenever [solve_pad] returns, the utilisation the loop computes at
    the returned width is at most the target utilisation, so the bound
    [utilisation <= targetUtilisation + eps] holds for every [eps >= 0],
    [eps = 0] included; the returned width is the seed widened by a whole
    number [k] of steps, and each of the [k] widths before it was above
    the target. *)
Theorem convergence_bound (fuel : nat) (c : inputs) (p : pad) (r : solution) :
  call_solve_pad fuel c p = Ok (Some r) ->
  exists (B0 : R) (k : nat) (l : trial),
    B_opt r = B0 + INR k * B_REFINE_STEP /\
    loop_body (pad_G p) (pad_Q p) (pad_Sur_G p) (pad_Sur_Q p)
              (in_q_allow c) (in_include_self_weight c) (B_opt r) = Ok l /\
    trial_util l <= in_target_utilisation c /\
    (forall eps, 0 <= eps -> trial_util l <= in_target_utilisation c + eps) /\
    (forall j : nat, (j < k)%nat ->
       exists l',
         loop_body (pad_G p) (pad_Q p) (pad_Sur_G p) (pad_Sur_Q p)
                   (in_q_allow c) (in_include_self_weight c)
                   (B0 + INR j * B_REFINE_STEP) = Ok l' /\
         trial_util l' > in_target_utilisation c).
Proof.
  unfold call_solve_pad. intros H.
  apply solve_pad_converged in H.
  destruct H as (B0 & k & l & _ & _ & _ & HB & _ & Hl & _ & Hu & Hbefore).
  exists B0, k, l. repeat split; auto.
  intros eps Heps. lra.
Qed.

Lemma convergence_bound_witness :
  call_solve_pad 2 Sample.form3 Sample.pad3 = Ok (Some Sample.solution3) /\
  exists (B0 : R) (k : nat) (l : trial),
    B_opt Sample.solution3 = B0 + INR k * B_REFINE_STEP /\
    loop_body (pad_G Sample.pad3) (pad_Q Sample.pad3)
              (pad_Sur_G Sample.pad3) (pad_Sur_Q Sample.pad3)
              (in_q_allow Sample.form3)
              (in_include_self_weight Sample.form3)
              (B_opt Sample.solution3) = Ok l /\
    trial_util l <= in_target_utilisation Sample.form3 /\
    (forall eps, 0 <= eps ->
       trial_util l <= in_target_utilisation Sample.form3 + eps) /\
    (forall j : nat, (j < k)%nat ->
       exists l',
         loop_body (pad_G Sample.pad3) (pad_Q Sample.pad3)
                   (pad_Sur_G Sample.pad3) (pad_Sur_Q Sample.pad3)
                   (in_q_allow Sample.form3)
                   (in_include_self_weight Sample.form3)
                   (B0 + INR j * B_REFINE_STEP) = Ok l' /\
         trial_util l' > in_target_utilisation Sample.form3).
Proof.
  split; [exact solve_pad3 | ].
  exact (convergence_bound 2 Sample.form3 Sample.pad3 Sample.solution3
                           solve_pad3).
Defined.

(** ** C5: the load accumulation *)

Lemma post_process_total (fuel : nat) (c : inputs) (p : pad) (r : solution) :
  call_solve_pad fuel c p = Ok (Some r) ->
  0 < in_rounding c ->
  exists res, post_process c p r = Ok res /\ B_opt r <= B_final res.
Proof.
  intros Hr Hinc.
  apply call_solve_pad_converged in Hr.
  destruct Hr as (Hpos & _ & Hqa & Hqt & HA & _).
  pose proof (round_up_ge (B_opt r) (in_rounding c) Hinc) as Hge.
  destruct (post_process_ok c p r) as [res Hres]; auto; try lra.
  exists res. split; [exact Hres | ].
  apply post_process_Ok_inv in Hres. destruct Hres as (_ & -> & _). exact Hge.
Qed.

(** C5. With [gamma_G = gamma_Q = 1] and [GAMMA_CONC = 24], a pass of the
    loop at any width [B > 0] computes the depth [B / 2], the self-weight
    [B^2 * t * 24] (or [0] when self-weight is off), the design load
    [1 * (G + selfWeight + Sur_G * B^2) + 1 * (Q + Sur_Q * B^2)] and the
    bearing pressure [N_ck / B^2]; and whenever the solver has converged
    the block stores, for the width [B_final] that [round_up] makes of the
    converged width, which is positive, the load and the pressure these
    formulas give at [B_final] and the depth [B_final / 2]: they are the
    numbers a pass of the loop at the width [B_final] computes. *)
Theorem load_accumulation (c : inputs) (p : pad) (B : R) :
  0 < B ->
  in_q_allow c <> 0 ->
  (gamma_G = 1 /\ gamma_Q = 1 /\ GAMMA_CONC = 24) /\
  (exists l,
     loop_body (pad_G p) (pad_Q p) (pad_Sur_G p) (pad_Sur_Q p)
               (in_q_allow c) (in_include_self_weight c) B = Ok l /\
     trial_t l = B / 2 /\
     trial_W_pad l
     = Design.selfWeight (in_include_self_weight c) 24 B (trial_t l) /\
     trial_N_ck l
     = Design.designLoad 1 1 (pad_G p) (pad_Q p) (trial_W_pad l)
                         (pad_Sur_G p) (pad_Sur_Q p) B /\
     trial_q_ed l = Design.bearingPressure (trial_N_ck l) B) /\
  (forall (fuel : nat) (r : solution),
     0 < in_rounding c ->
     call_solve_pad fuel c p = Ok (Some r) ->
     exists res,
       post_process c p r = Ok res /\
       size_pad fuel c p = Ok (set_results p res) /\
       round_up (B_opt r) (in_rounding c) = Ok (B_final res) /\
       0 < B_final res /\
       t_round res = B_final res / 2 /\
       N_ck res
       = Design.loadAt (in_include_self_weight c) (pad_G p) (pad_Q p)
                       (pad_Sur_G p) (pad_Sur_Q p)
                       (B_final res) (t_round res) /\
       q_ed res = Design.bearingPressure (N_ck res) (B_final res) /\
       exists l,
         loop_body (pad_G p) (pad_Q p) (pad_Sur_G p) (pad_Sur_Q p)
                   (in_q_allow c) (in_include_self_weight c)
                   (B_final res) = Ok l /\
         trial_t l = t_round res /\
         trial_N_ck l = N_ck res /\
         trial_q_ed l = q_ed res /\
         trial_util l = utilisation res).
Proof.
  intros HB Hqa.
  split; [unfold_consts; repeat split; lra | ].
  split.
  - assert (HB2 : B ^ 2 <> 0) by (apply pow_nonzero; lra).
    unfold loop_body.
    rewrite truediv_ok by exact HB2. cbn [bind].
    rewrite truediv_ok by exact Hqa. cbn [bind].
    eexists. split; [reflexivity | ].
    cbv beta iota delta [trial_t trial_W_pad trial_N_ck trial_q_ed].
    unfold Design.selfWeight, Design.designLoad, Design.bearingPressure.
    unfold_consts.
    repeat split; try lra.
    + destruct (in_include_self_weight c); lra.
  - intros fuel r Hinc Hr.
    destruct (post_process_total _ _ _ _ Hr Hinc) as (res & Hres & Hge).
    pose proof (call_solve_pad_converged _ _ _ _ Hr) as (Hpos & _).
    exists res. split; [exact Hres | ].
    split; [apply (size_pad_ok _ _ _ r); assumption | ].
    apply post_process_Ok_inv in Hres.
    destruct Hres as (Hinc' & HBf & HBnz & _ & Ht & HN & Hq & Hu & _).
    assert (HBpos : 0 < B_final res) by lra.
    split; [rewrite round_up_ok by exact Hinc'; rewrite HBf; reflexivity | ].
    split; [exact HBpos | ].
    split; [lra | ].
    split.
    { rewrite HN, Ht.
      unfold load_at, sw_coeff, Design.loadAt, Design.designLoad,
        Design.selfWeight.
      destruct (in_include_self_weight c); lra. }
    split; [exact Hq | ].
    destruct (loop_body_ok (pad_G p) (pad_Q p) (pad_Sur_G p) (pad_Sur_Q p)
                           (in_q_allow c) (in_include_self_weight c)
                           (B_final res) HBnz Hqa)
      as (l & Hl & Ht' & HN' & Hq' & Hu').
    exists l. split; [exact Hl | ].
    split; [lra | ].
    split; [rewrite HN', HN; reflexivity | ].
    split; [rewrite Hq', Hq, HN; reflexivity | ].
    rewrite Hu', Hu. reflexivity.
Qed.

Lemma load_accumulation_witness :
  0 < 1.5 /\
  in_q_allow Sample.form <> 0 /\
  (exists l,
     loop_body 100.0 50.0 0.0 0.0 150.0 true 1.5 = Ok l /\
     trial_t l = 1.5 / 2 /\
     trial_W_pad l = Design.selfWeight true 24 1.5 (trial_t l) /\
     trial_N_ck l
     = Design.designLoad 1 1 100.0 50.0 (trial_W_pad l) 0.0 0.0 1.5 /\
     trial_q_ed l = Design.bearingPressure (trial_N_ck l) 1.5) /\
  exists res,
    post_process Sample.form Sample.pad1 Sample.solution1 = Ok res /\
    size_pad 1 Sample.form Sample.pad1 = Ok (set_results Sample.pad1 res) /\
    round_up (B_opt Sample.solution1) (in_rounding Sample.form)
    = Ok (B_final res) /\
    0 < B_final res /\
    t_round res = B_final res / 2 /\
    N_ck res
    = Design.loadAt true 100.0 50.0 0.0 0.0 (B_final res) (t_round res) /\
    q_ed res = Design.bearingPressure (N_ck res) (B_final res) /\
    exists l,
      loop_body 100.0 50.0 0.0 0.0 150.0 true (B_final res) = Ok l /\
      trial_t l = t_round res /\
      trial_N_ck l = N_ck res /\
      trial_q_ed l = q_ed res /\
      trial_util l = utilisation res.
Proof.
  assert (H1 : 0 < 1.5) by lra.
  assert (H2 : in_q_allow Sample.form <> 0) by (simpl; lra).
  assert (H3 : 0 < in_rounding Sample.form) by (simpl; lra).
  split; [exact H1 | ]. split; [exact H2 | ].
  destruct (load_accumulation Sample.form Sample.pad1 1.5 H1 H2)
    as (_ & Hloop & Hblock).
  split; [exact Hloop | ].
  exact (Hblock 1%nat Sample.solution1 H3 solve_pad1).
Defined.

(** ** C6: the rounding law *)

(** In exact arithmetic the law holds: for every converged width [B_opt]
    and every rounding increment [rounding > 0], the final width is
    [ceil(B_opt / rounding) * rounding], it is what the block stores as
    [B_final], and it is not below [B_opt] (and less than one increment
    above it). *)
Lemma rounding_law_exact (fuel : nat) (c : inputs) (p : pad) (r : solution) :
  0 < in_rounding c ->
  call_solve_pad fuel c p = Ok (Some r) ->
  round_up (B_opt r) (in_rounding c)
  = Ok (IZR (Py.math_ceil (B_opt r / in_rounding c)) * in_rounding c) /\
  exists p' res,
    size_pad fuel c p = Ok p' /\
    results p' = Some res /\
    B_final res
    = IZR (Py.math_ceil (B_opt r / in_rounding c)) * in_rounding c /\
    B_opt r <= B_final res < B_opt r + in_rounding c.
Proof.
  intros Hinc Hr.
  split; [apply round_up_ok; lra | ].
  destruct (post_process_total _ _ _ _ Hr Hinc) as (res & Hres & Hge).
  exists (set_results p res), res.
  split; [apply (size_pad_ok _ _ _ r); assumption | ].
  split; [reflexivity | ].
  apply post_process_Ok_inv in Hres. destruct Hres as (_ & HB & _).
  split; [exact HB | ].
  split; [exact Hge | ].
  rewrite HB. apply round_up_lt_next. exact Hinc.
Qed.

Section RoundingOnFloats.

Import PrimFloat.
Local Open Scope float_scope.
#[local] Set Warnings "-inexact-float".

(** C6. On the program's floats the rounding law fails, on a pad the form
    accepts.  With the form as it opens but for self-weight, which is
    off (allowable pressure 150, target 0.90, minimum width 1.5,
    increment 0.2), the pad with G = 112.771, Q = 0, Sur_G = 100 and
    Sur_Q = 0 converges after 31 passes at the width 1.8000000000000003.
    [round_up] divides that width by the increment; the quotient, a
    little above nine, is rounded to the float 9.0, of which the ceiling
    is 9, and the width stored is 9 * 0.2 = 1.8: a width below the
    converged one, where the law asks for the next multiple, 2.0.  The
    run takes from the C library nothing but the correctly rounded
    squares of the 31 trial widths. *)
Theorem stored_width_below_converged_width
        (libm_pow : float -> float -> float) :
  (forall k, (k < 31)%nat ->
     libm_pow (Binary64.trial_width 1.5 k) 2
     = Binary64.trial_width 1.5 k * Binary64.trial_width 1.5 k) ->
  Binary64.solve_pad libm_pow 112.771 0 100 0 150 0.9 1.5 0.75 0.2 false 31
  = Binary64.Ok (Some {| Binary64.B_opt := 1.8000000000000003;
                         Binary64.t := 0.9000000000000001;
                         Binary64.N_ck_initial := 112.771;
                         Binary64.q_target := 135 |}) /\
  Binary64.truediv 1.8000000000000003 0.2 = Binary64.Ok 9 /\
  Binary64.math_ceil 9 = Binary64.Ok 9%Z /\
  Binary64.round_up 1.8000000000000003 0.2 = Binary64.Ok 1.8 /\
  (1.8 <? 1.8000000000000003) = true.
Proof.
  intros H.
  split; [ | repeat split; vm_compute; reflexivity].
  unfold Binary64.solve_pad.
  replace (Binary64.seed_width 112.771 0 150 0.9 1.5)
    with (Binary64.Ok (112.771, 135, 1.5))
    by (vm_compute; reflexivity).
  cbn [Binary64.bind].
  rewrite (binary64_refine_ext libm_pow Binary64.square_pow).
  - vm_compute. reflexivity.
  - intros k Hk.
    do 31 (destruct k as [ | k];
           [ match goal with
             | |- _ (abs (Binary64.trial_width _ ?n)) _ = _ =>
                 let E := fresh "E" in
                 pose proof (H n ltac:(lia)) as E;
                 vm_compute in E; vm_compute; exact E
             end | ]).
    lia.
Qed.

Lemma stored_width_below_converged_width_witness :
  (forall k, (k < 31)%nat ->
     Binary64.square_pow (Binary64.trial_width 1.5 k) 2
     = Binary64.trial_width 1.5 k * Binary64.trial_width 1.5 k) /\
  Binary64.solve_pad Binary64.square_pow
                     112.771 0 100 0 150 0.9 1.5 0.75 0.2 false 31
  = Binary64.Ok (Some {| Binary64.B_opt := 1.8000000000000003;
                         Binary64.t := 0.9000000000000001;
                         Binary64.N_ck_initial := 112.771;
                         Binary64.q_target := 135 |}) /\
  Binary64.truediv 1.8000000000000003 0.2 = Binary64.Ok 9 /\
  Binary64.math_ceil 9 = Binary64.Ok 9%Z /\
  Binary64.round_up 1.8000000000000003 0.2 = Binary64.Ok 1.8 /\
  (1.8 <? 1.8000000000000003) = true.
Proof.
  assert (H : forall k, (k < 31)%nat ->
                Binary64.square_pow (Binary64.trial_width 1.5 k) 2
                = Binary64.trial_width 1.5 k * Binary64.trial_width 1.5 k)
    by (intros k _; reflexivity).
  split; [exact H | ].
  exact (stored_width_below_converged_width Binary64.square_pow H).
Defined.

End RoundingOnFloats.

(** ** C10: determinism *)

Lemma size_pad_fuel_mono (n m : nat) (c : inputs) (p p' : pad) :
  size_pad n c p = Ok p' -> (n <= m)%nat -> size_pad m c p = Ok p'.
Proof.
  intros H Hle. apply size_pad_Ok_inv in H.
  destruct H as (r & res & Hr & Hres & ->).
  apply (size_pad_ok _ _ _ r); [ | exact Hres].
  unfold call_solve_pad in *.
  eapply solve_pad_fuel_mono; eassumption.
Qed.

(** What the script leaves in the session is a fixed point of the script:
    a second run over the pads it has just sized stores the same
    results. *)
Lemma size_pad_rerun (fuel : nat) (c : inputs) (p p' : pad) :
  size_pad fuel c p = Ok p' -> size_pad fuel c p' = Ok p'.
Proof.
  intros H. apply size_pad_Ok_inv in H.
  destruct H as (r & res & Hr & Hres & ->).
  exact (size_pad_ok c (set_results p res) fuel r res Hr Hres).
Qed.

(** C10. The outcome of sizing a pad is a function of its four loads and
    of the inputs of the form alone: two passes over pads with the same
    loads under the same inputs store the same width, depth, design load,
    bearing pressure, utilisation and volume, whatever the pads' ids,
    whatever results they carried before and however long the loop was
    allowed to run. *)
Theorem sizing_is_deterministic (c : inputs) (p1 p2 p1' p2' : pad)
        (n1 n2 : nat) :
  pad_G p1 = pad_G p2 ->
  pad_Q p1 = pad_Q p2 ->
  pad_Sur_G p1 = pad_Sur_G p2 ->
  pad_Sur_Q p1 = pad_Sur_Q p2 ->
  size_pad n1 c p1 = Ok p1' ->
  size_pad n2 c p2 = Ok p2' ->
  exists res, results p1' = Some res /\ results p2' = Some res.
Proof.
  intros HG HQ HSG HSQ H1 H2.
  apply size_pad_Ok_inv in H1. destruct H1 as (r1 & res1 & Hr1 & Hres1 & ->).
  apply size_pad_Ok_inv in H2. destruct H2 as (r2 & res2 & Hr2 & Hres2 & ->).
  unfold call_solve_pad in Hr1, Hr2.
  rewrite HG, HQ, HSG, HSQ in Hr1.
  assert (E : Some r1 = Some r2)
    by (eapply solve_pad_fuel_det; eassumption).
  injection E as ->.
  unfold post_process in Hres1, Hres2.
  rewrite HG, HQ, HSG, HSQ in Hres1.
  assert (res1 = res2) by congruence. subst res2.
  exists res1. split; reflexivity.
Qed.

Lemma sizing_is_deterministic_witness :
  size_pad 1 Sample.form Sample.pad1
  = Ok (set_results Sample.pad1 Sample.results1) /\
  size_pad 3 Sample.form (set_results Sample.pad1 Sample.results1)
  = Ok (set_results Sample.pad1 Sample.results1) /\
  exists res,
    results (set_results Sample.pad1 Sample.results1) = Some res /\
    results (set_results Sample.pad1 Sample.results1) = Some res.
Proof.
  assert (H3 : size_pad 3 Sample.form
                        (set_results Sample.pad1 Sample.results1)
               = Ok (set_results Sample.pad1 Sample.results1)).
  { apply (size_pad_fuel_mono 1); [ | lia].
    apply (size_pad_rerun 1 Sample.form Sample.pad1). exact size_pad1. }
  split; [exact size_pad1 | ]. split; [exact H3 | ].
  exact (sizing_is_deterministic
           Sample.form Sample.pad1
           (set_results Sample.pad1 Sample.results1) _ _ 1 3
           eq_refl eq_refl eq_refl eq_refl size_pad1 H3).
Defined.

Lemma calculations_rerun (fuel : nat) (c : inputs) (pads : list pad) :
  forall pads',
    calculations fuel c pads = Ok pads' ->
    calculations fuel c pads' = Ok pads'.
Proof.
  induction pads as [ | p rest IH]; intros pads' H.
  - simpl in H. apply Ok_inj in H. subst pads'. reflexivity.
  - simpl in H.
    apply bind_Ok_inv in H. destruct H as (p' & Hp & H).
    apply bind_Ok_inv in H. destruct H as (rest' & Hrest & H).
    apply Ok_inj in H. subst pads'. simpl.
    rewrite (size_pad_rerun _ _ _ _ Hp). cbn [bind].
    rewrite (IH _ Hrest). reflexivity.
Qed.

(** ** C1: termination *)

(** On ground of the least allowable pressure the form accepts, no width
    carries the default loads with self-weight included: below two metres
    the column load alone is too much, from two metres on the pad's own
    weight is. *)
Lemma soft_ground_never_meets_target (B : R) :
  0 < B ->
  load_at 750.0 500.0 0.0 0.0 true B > 0.90 * 25.0 * B ^ 2.
Proof.
  intros HB. unfold load_at, sw_coeff.
  destruct (Rle_or_lt 2 B) as [L | L].
  - assert (H : 0 <= B ^ 2 * (B - 2)).
    { apply Rmult_le_pos; [apply pow2_ge_0 | lra]. }
    nra.
  - assert (H : B ^ 2 < 4) by nra.
    assert (H3 : 0 < B ^ 3) by (apply pow_lt; exact HB).
    nra.
Qed.

(** C1, at the input that refutes it for the code.  The claim is that
    [solve_pad] stops after a bounded number of width increments, with a
    solution or with an explicit infeasibility signal.  The loop of the
    code has no bound and the function has no second [return]: for the
    default loads (G = 750, Q = 500), the least allowable pressure of the
    form (25) and every other input left as the form opens, the call is
    still inside the loop after any number of passes, and so is the pass
    of the calculation block that made it. *)
Theorem soft_ground_search_is_unbounded (fuel : nat) :
  call_solve_pad fuel Sample.form_soft Sample.pad_default = Diverge /\
  size_pad fuel Sample.form_soft Sample.pad_default = Diverge.
Proof.
  assert (H : call_solve_pad fuel Sample.form_soft Sample.pad_default
              = Diverge).
  { unfold call_solve_pad, solve_pad, Sample.form_soft, Sample.pad_default.
    cbn [pad_G pad_Q pad_Sur_G pad_Sur_Q in_q_allow in_target_utilisation
         in_min_width in_include_self_weight].
    rewrite seed_width_ok by (unfold_consts; lra). cbn [bind].
    rewrite refine_diverges; [reflexivity | | lra | ].
    - eapply Rlt_le_trans; [ | apply max_ge_right]. lra.
    - intros B HB. apply soft_ground_never_meets_target.
      eapply Rlt_le_trans; [ | exact HB].
      eapply Rlt_le_trans; [ | apply max_ge_right]. lra. }
  split; [exact H | ].
  unfold size_pad. rewrite H. reflexivity.
Qed.

(** That input is one the form lets through. *)
Lemma form_soft_accepted : form_accepts Sample.form_soft.
Proof.
  unfold form_accepts, Sample.form_soft. simpl.
  split; [lra | ]. split; [right; reflexivity | ].
  split; [exists 18%Z; split; [lia | simpl; lra] | ].
  split; lra.
Qed.

(** An infeasibility signal is not among the outcomes of the function on
    any input: it returns a dictionary, raises, or does not return. *)
Lemma solve_pad_has_no_infeasible_outcome (fuel : nat) (c : inputs) (p : pad) :
  call_solve_pad fuel c p <> Ok None.
Proof. unfold call_solve_pad. apply solve_pad_never_None. Qed.

(** ** C3: utilisation after rounding *)






(** ** C7: invalid constraints *)

(** C7, as it fails.  A negative rounding increment is an invalid
    constraint, yet nothing is raised before the loop, the solver runs and
    converges, nothing is raised after it either, and the block stores a
    width rounded down, below the converged one. *)
Lemma negative_rounding_is_not_rejected :
  invalid_constraint Sample.form_neg_rounding /\
  ~ rejected_before_loop Sample.form_neg_rounding Sample.pad1 /\
  call_solve_pad 1 Sample.form_neg_rounding Sample.pad1
  = Ok (Some Sample.solution1) /\
  size_pad 1 Sample.form_neg_rounding Sample.pad1
  = Ok (set_results Sample.pad1 Sample.results_neg_rounding) /\
  B_final Sample.results_neg_rounding < B_opt Sample.solution1.
Proof.
  split.
  { unfold invalid_constraint. right. right. simpl. lra. }
  split.
  { intros [e He]. simpl in He. rewrite seed_pad1 in He. discriminate. }
  split; [exact solve_pad_neg_rounding | ].
  split; [exact size_pad_neg_rounding | ].
  simpl. lra.
Qed.

(** C7, amended.  The code checks no constraint of its own.  What stops a
    call before the loop is the arithmetic of the seed: when
    [target_utilisation * q_allow] is zero the division by it raises
    [ZeroDivisionError], and when it is negative while [G + Q > 0] the
    square root raises [ValueError].  In both cases the exception is the
    outcome of [solve_pad] whatever the fuel, so no pass of the loop is
    made, and it is the outcome of the calculation block. *)
Theorem bad_target_pressure_raises_before_loop (c : inputs) (p : pad) :
  in_target_utilisation c * in_q_allow c = 0 \/
  (in_target_utilisation c * in_q_allow c < 0 /\ 0 < pad_G p + pad_Q p) ->
  exists e : exn,
    (e = ZeroDivisionError <-> in_target_utilisation c * in_q_allow c = 0) /\
    seed_width (pad_G p) (pad_Q p) (in_q_allow c) (in_target_utilisation c)
               (in_min_width c) = Raise e /\
    forall fuel : nat,
      call_solve_pad fuel c p = Raise e /\ size_pad fuel c p = Raise e.
Proof.
  intros H.
  assert (Hseed : exists e : exn,
             (e = ZeroDivisionError
              <-> in_target_utilisation c * in_q_allow c = 0) /\
             seed_width (pad_G p) (pad_Q p) (in_q_allow c)
                        (in_target_utilisation c) (in_min_width c)
             = Raise e).
  { destruct H as [Hz | [Hneg HN]].
    - exists ZeroDivisionError. split; [tauto | ].
      unfold seed_width. rewrite truediv_zero by exact Hz. reflexivity.
    - exists ValueError. split.
      + split; [discriminate | lra].
      + unfold seed_width. rewrite truediv_ok by lra. cbn [bind].
        rewrite math_sqrt_neg; [reflexivity | ].
        unfold_consts.
        assert (Hi : / (in_target_utilisation c * in_q_allow c) < 0)
          by (apply Rinv_lt_0_compat; exact Hneg).
        unfold Rdiv. nra. }
  destruct Hseed as (e & He & Hseed).
  exists e. split; [exact He | ]. split; [exact Hseed | ].
  intros fuel.
  assert (Hcall : call_solve_pad fuel c p = Raise e).
  { unfold call_solve_pad. apply solve_pad_seed_raises. exact Hseed. }
  split; [exact Hcall | ].
  unfold size_pad. rewrite Hcall. reflexivity.
Qed.

Lemma bad_target_pressure_witness :
  (in_target_utilisation Sample.form_zero_pressure
   * in_q_allow Sample.form_zero_pressure = 0 \/
   (in_target_utilisation Sample.form_zero_pressure
    * in_q_allow Sample.form_zero_pressure < 0 /\
    0 < pad_G Sample.pad1 + pad_Q Sample.pad1)) /\
  exists e : exn,
    (e = ZeroDivisionError
     <-> in_target_utilisation Sample.form_zero_pressure
         * in_q_allow Sample.form_zero_pressure = 0) /\
    seed_width (pad_G Sample.pad1) (pad_Q Sample.pad1)
               (in_q_allow Sample.form_zero_pressure)
               (in_target_utilisation Sample.form_zero_pressure)
               (in_min_width Sample.form_zero_pressure) = Raise e /\
    forall fuel : nat,
      call_solve_pad fuel Sample.form_zero_pressure Sample.pad1 = Raise e /\
      size_pad fuel Sample.form_zero_pressure Sample.pad1 = Raise e.
Proof.
  assert (H : in_target_utilisation Sample.form_zero_pressure
              * in_q_allow Sample.form_zero_pressure = 0 \/
              (in_target_utilisation Sample.form_zero_pressure
               * in_q_allow Sample.form_zero_pressure < 0 /\
               0 < pad_G Sample.pad1 + pad_Q Sample.pad1)).
  { left. simpl. lra. }
  split; [exact H | ].
  exact (bad_target_pressure_raises_before_loop
           Sample.form_zero_pressure Sample.pad1 H).
Defined.

(** Through the form no invalid constraint reaches the solver. *)
Lemma form_accepts_valid (c : inputs) :
  form_accepts c -> ~ invalid_constraint c.
Proof.
  intros (Hqa & Hr & (k & Hk & Htu) & _) [H | [H | H]].
  - lra.
  - rewrite Htu in H.
    assert (Hk5 : IZR 50 <= IZR (5 * k)) by (apply IZR_le; lia).
    lra.
  - destruct Hr as [E | E]; rewrite E in H; lra.
Qed.

(** The rounding increment is first looked at after the solve: a zero
    increment raises there, a negative one does not raise at all. *)
Lemma zero_rounding_raises_after_solve (c : inputs) (p : pad) (r : solution) :
  in_rounding c = 0 -> post_process c p r = Raise ZeroDivisionError.
Proof.
  intros H. unfold post_process, round_up.
  rewrite truediv_zero by exact H. reflexivity.
Qed.

(** ** C8: monotonicity in the loads *)

(** Two seeds [a <= b], both widened by the same [j]: if the wider pad
    carries the load [qt * b^2] its seed was computed from, the narrower
    one carries [qt * a^2].  [S] is the surcharge per unit area, [k] the
    self-weight coefficient. *)
Lemma core_shift (qt S k a b j : R) :
  0 <= qt -> 0 <= k -> 0 <= a <= b -> 0 <= j -> 0 < a + j ->
  qt * b ^ 2 + S * (b + j) ^ 2 + k * (b + j) ^ 3 <= qt * (b + j) ^ 2 ->
  qt * a ^ 2 + S * (a + j) ^ 2 + k * (a + j) ^ 3 <= qt * (a + j) ^ 2.
Proof.
  intros Hqt Hk [Ha Hab] Hj Hxa H.
  set (xa := a + j) in *. set (xb := b + j) in *.
  set (G1 := qt * xa ^ 2 - (qt * a ^ 2 + S * xa ^ 2 + k * xa ^ 3)).
  set (G2 := qt * xb ^ 2 - (qt * b ^ 2 + S * xb ^ 2 + k * xb ^ 3)).
  assert (HG2 : 0 <= G2) by (unfold G2; lra).
  assert (Hid : xb ^ 2 * G1
                = xa ^ 2 * G2
                  + qt * j * (b - a) * (b * xa + a * xb)
                  + k * xa ^ 2 * xb ^ 2 * (b - a)).
  { unfold G1, G2, xa, xb. ring. }
  assert (Hxb : 0 < xb) by (unfold xb, xa in *; lra).
  assert (Hxa2 : 0 <= xa ^ 2) by apply pow2_ge_0.
  assert (Hxb2 : 0 < xb ^ 2) by (apply pow_lt; exact Hxb).
  assert (T1 : 0 <= xa ^ 2 * G2) by (apply Rmult_le_pos; assumption).
  assert (T2 : 0 <= qt * j * (b - a) * (b * xa + a * xb)).
  { repeat apply Rmult_le_pos; try lra.
    apply Rplus_le_le_0_compat; apply Rmult_le_pos; lra. }
  assert (T3 : 0 <= k * xa ^ 2 * xb ^ 2 * (b - a)).
  { repeat apply Rmult_le_pos; try lra. }
  assert (HP : 0 <= xb ^ 2 * G1) by (rewrite Hid; lra).
  assert (HG1 : 0 <= G1).
  { destruct (Rle_or_lt 0 G1) as [L | L]; [exact L | ].
    assert (xb ^ 2 * G1 < 0).
    { rewrite <- (Rmult_0_r (xb ^ 2)). apply Rmult_lt_compat_l; lra. }
    lra. }
  unfold G1 in HG1. lra.
Qed.

Lemma max_mono_left (a a' m : R) : a <= a' -> Py.max a m <= Py.max a' m.
Proof.
  intros H.
  destruct (max_cases a m) as [[_ ->] | [_ ->]];
    destruct (max_cases a' m) as [[L ->] | [L ->]]; lra.
Qed.

Lemma sqrt_quotient_sq (N qt : R) :
  0 < qt -> 0 <= N -> qt * sqrt (N / qt) ^ 2 = N.
Proof.
  intros Hqt HN.
  assert (H : 0 <= N / qt).
  { unfold Rdiv. apply Rmult_le_pos; [exact HN | ].
    apply Rlt_le, Rinv_0_lt_compat. exact Hqt. }
  rewrite pow2_sqrt by exact H. field. lra.
Qed.

(** The same with the seeds the code computes from the loads. *)
Lemma seed_shift (qt S k N1 N2 mw j : R) :
  0 < qt -> 0 <= k -> 0 <= N1 <= N2 -> 0 <= j ->
  0 < Py.max (sqrt (N1 / qt)) mw + j ->
  N2 + S * (Py.max (sqrt (N2 / qt)) mw + j) ^ 2
  + k * (Py.max (sqrt (N2 / qt)) mw + j) ^ 3
  <= qt * (Py.max (sqrt (N2 / qt)) mw + j) ^ 2 ->
  N1 + S * (Py.max (sqrt (N1 / qt)) mw + j) ^ 2
  + k * (Py.max (sqrt (N1 / qt)) mw + j) ^ 3
  <= qt * (Py.max (sqrt (N1 / qt)) mw + j) ^ 2.
Proof.
  intros Hqt Hk [HN1 HN12] Hj.
  assert (HN2 : 0 <= N2) by lra.
  pose proof (sqrt_quotient_sq N1 qt Hqt HN1) as E1.
  pose proof (sqrt_quotient_sq N2 qt Hqt HN2) as E2.
  assert (Hs : sqrt (N1 / qt) <= sqrt (N2 / qt)).
  { apply sqrt_le_1_alt. unfold Rdiv.
    apply Rmult_le_compat_r; [ | exact HN12].
    apply Rlt_le, Rinv_0_lt_compat. exact Hqt. }
  pose proof (sqrt_pos (N1 / qt)) as P1.
  pose proof (sqrt_pos (N2 / qt)) as P2.
  set (s1 := sqrt (N1 / qt)) in *. set (s2 := sqrt (N2 / qt)) in *.
  destruct (max_cases s1 mw) as [[L1 ->] | [L1 ->]];
    destruct (max_cases s2 mw) as [[L2 ->] | [L2 ->]]; intros Hpos H.
  - (* both seeds come from the loads *)
    rewrite <- E1. rewrite <- E2 in H.
    apply (core_shift qt S k s1 s2 j); lra.
  - (* the heavier load would have the smaller root *)
    lra.
  - (* the lighter load is seeded by [min_width], the heavier by its root *)
    rewrite <- E2 in H.
    assert (Hc : qt * mw ^ 2 + S * (mw + j) ^ 2 + k * (mw + j) ^ 3
                 <= qt * (mw + j) ^ 2).
    { apply (core_shift qt S k mw s2 j); lra. }
    assert (Hsq : s1 ^ 2 <= mw ^ 2) by (apply pow_incr; lra).
    assert (HN : N1 <= qt * mw ^ 2).
    { rewrite <- E1. apply Rmult_le_compat_l; lra. }
    lra.
  - (* both are seeded by [min_width] *)
    lra.
Qed.

(** In exact arithmetic the solver is monotone in the loads.  With a
    positive allowable pressure and a positive target utilisation, if the
    solver converges on two inputs that differ only in the loads, each of
    G, Q, Sur_G and Sur_Q being at least as large in the second as in the
    first (so in particular when exactly one of them is larger), then the
    converged width of the second is at least the converged width of the
    first. *)
Lemma width_monotone_exact (c : inputs) (p1 p2 : pad) (n1 n2 : nat)
        (r1 r2 : solution) :
  0 < in_q_allow c ->
  0 < in_target_utilisation c ->
  pad_G p1 <= pad_G p2 ->
  pad_Q p1 <= pad_Q p2 ->
  pad_Sur_G p1 <= pad_Sur_G p2 ->
  pad_Sur_Q p1 <= pad_Sur_Q p2 ->
  call_solve_pad n1 c p1 = Ok (Some r1) ->
  call_solve_pad n2 c p2 = Ok (Some r2) ->
  B_opt r1 <= B_opt r2.
Proof.
  intros Hqa Htu HG HQ HSG HSQ H1 H2.
  unfold call_solve_pad in H1, H2.
  apply solve_pad_converged in H1.
  destruct H1 as (A1 & k1 & l1 & Hseed1 & _ & HA1 & HB1 & Hpos1 & _ & _ & _
                  & Hbefore1).
  apply solve_pad_converged in H2.
  destruct H2 as (A2 & k2 & l2 & Hseed2 & _ & HA2 & HB2 & Hpos2 & Hl2 & _
                  & Hu2 & _).
  apply seed_width_Ok_inv in Hseed1.
  destruct Hseed1 as (EN1 & Eqt1 & _ & Hq1 & EA1).
  apply seed_width_Ok_inv in Hseed2.
  destruct Hseed2 as (EN2 & Eqt2 & _ & Hq2 & EA2).
  set (qt := in_target_utilisation c * in_q_allow c) in *.
  set (N1 := pad_G p1 + pad_Q p1).
  set (N2 := pad_G p2 + pad_Q p2).
  assert (Hqt : 0 < qt) by (apply Rmult_lt_0_compat; assumption).
  assert (EN1' : N_ck_initial r1 = N1) by (rewrite EN1; unfold_consts; unfold N1; lra).
  assert (EN2' : N_ck_initial r2 = N2) by (rewrite EN2; unfold_consts; unfold N2; lra).
  rewrite EN1', Eqt1 in *. rewrite EN2', Eqt2 in *.
  assert (Hnonneg : forall N, 0 <= N / qt -> 0 <= N).
  { intros N HN. replace N with (N / qt * qt) by (field; lra).
    apply Rmult_le_pos; lra. }
  assert (HN1 : 0 <= N1) by (apply Hnonneg; exact Hq1).
  assert (HN12 : N1 <= N2) by (unfold N1, N2; lra).
  assert (Hseeds : A1 <= A2).
  { rewrite EA1, EA2. apply max_mono_left. apply sqrt_le_1_alt.
    unfold Rdiv. apply Rmult_le_compat_r; [ | exact HN12].
    apply Rlt_le, Rinv_0_lt_compat. exact Hqt. }
  assert (Hstep : 0 < B_REFINE_STEP) by (unfold_consts; lra).
  destruct (Nat.le_gt_cases k1 k2) as [Hk | Hk].
  - (* the second run made at least as many passes *)
    apply le_INR in Hk.
    assert (INR k1 * B_REFINE_STEP <= INR k2 * B_REFINE_STEP)
      by (apply Rmult_le_compat_r; lra).
    lra.
  - (* the second run would have stopped at a pass the first one went
       beyond *)
    exfalso.
    destruct (Hbefore1 k2 Hk) as (l & Hl & Hu).
    set (j := INR k2 * B_REFINE_STEP) in *.
    assert (Hj : 0 <= j).
    { unfold j. apply Rmult_le_pos; [apply pos_INR | lra]. }
    pose proof (loop_body_Ok_inv _ _ _ _ _ _ _ _ Hl) as (Hne & _ & _ & _ & _ & Eu).
    assert (Hx1 : 0 < A1 + j) by lra.
    rewrite Eu in Hu.
    apply util_at_gt_iff in Hu; [ | exact Hx1 | exact Hqa].
    pose proof (loop_body_Ok_inv _ _ _ _ _ _ _ _ Hl2) as (_ & _ & _ & _ & _ & Eu2).
    rewrite Eu2 in Hu2.
    apply util_at_le_iff in Hu2; [ | exact Hpos2 | exact Hqa].
    rewrite HB2 in Hu2. fold j in Hu2.
    unfold load_at in Hu, Hu2. fold qt in Hu, Hu2. fold N1 in Hu. fold N2 in Hu2.
    set (k := sw_coeff (in_include_self_weight c)) in *.
    set (S1 := pad_Sur_G p1 + pad_Sur_Q p1) in *.
    assert (Hk0 : 0 <= k).
    { unfold k, sw_coeff. destruct (in_include_self_weight c); lra. }
    assert (Hsq : 0 <= (A2 + j) ^ 2) by apply pow2_ge_0.
    assert (Hsur : S1 * (A2 + j) ^ 2
                   <= (pad_Sur_G p2 + pad_Sur_Q p2) * (A2 + j) ^ 2).
    { apply Rmult_le_compat_r; [exact Hsq | unfold S1; lra]. }
    assert (H2' : N2 + S1 * (A2 + j) ^ 2 + k * (A2 + j) ^ 3
                  <= qt * (A2 + j) ^ 2) by lra.
    rewrite EA2 in H2'. rewrite EA1 in Hu, Hx1.
    pose proof (seed_shift qt S1 k N1 N2 (in_min_width c) j Hqt Hk0
                           (conj HN1 HN12) Hj Hx1 H2') as Hcontra.
    lra.
Qed.

Section MonotonicityOnFloats.

Import PrimFloat.
Local Open Scope float_scope.
#[local] Set Warnings "-inexact-float".

(** C8. On the program's floats a larger load can give a narrower pad.
    With the allowable pressure 100, the target 0.50, the minimum width
    0.5, no self-weight and no surcharge, the seed meets the target
    exactly in exact arithmetic, and rounding decides the test of the
    first pass: for G = 101.5 the utilisation computed at the seed
    1.4247806848775006 is above 0.5, the loop widens once and returns
    1.4347806848775007, while for the larger G = 102 the utilisation
    computed at the seed 1.42828568570857 is 0.5 and that seed is
    returned.  The runs take from the C library nothing but the correctly
    rounded squares of the three trial widths. *)
Theorem larger_load_smaller_width (libm_pow : float -> float -> float) :
  libm_pow 1.4247806848775006 2 = 1.4247806848775006 * 1.4247806848775006 ->
  libm_pow 1.4347806848775007 2 = 1.4347806848775007 * 1.4347806848775007 ->
  libm_pow 1.42828568570857 2 = 1.42828568570857 * 1.42828568570857 ->
  Binary64.solve_pad libm_pow 101.5 0 0 0 100 0.5 0.5 0.75 0.2 false 2
  = Binary64.Ok (Some {| Binary64.B_opt := 1.4347806848775007;
                         Binary64.t := 0.7173903424387503;
                         Binary64.N_ck_initial := 101.5;
                         Binary64.q_target := 50 |}) /\
  Binary64.solve_pad libm_pow 102 0 0 0 100 0.5 0.5 0.75 0.2 false 1
  = Binary64.Ok (Some {| Binary64.B_opt := 1.42828568570857;
                         Binary64.t := 0.714142842854285;
                         Binary64.N_ck_initial := 102;
                         Binary64.q_target := 50 |}) /\
  (101.5 <? 102) = true /\
  (1.42828568570857 <? 1.4347806848775007) = true.
Proof.
  intros H1 H2 H3.
  split; [ | split; [ | split; vm_compute; reflexivity]].
  - unfold Binary64.solve_pad.
    replace (Binary64.seed_width 101.5 0 100 0.5 0.5)
      with (Binary64.Ok (101.5, 50, 1.4247806848775006))
      by (vm_compute; reflexivity).
    cbn [Binary64.bind].
    rewrite (binary64_refine_ext libm_pow Binary64.square_pow).
    + vm_compute. reflexivity.
    + intros k Hk.
      destruct k as [ | k]; [vm_compute in H1 |- *; exact H1 | ].
      destruct k as [ | k]; [vm_compute in H2 |- *; exact H2 | ].
      lia.
  - unfold Binary64.solve_pad.
    replace (Binary64.seed_width 102 0 100 0.5 0.5)
      with (Binary64.Ok (102, 50, 1.42828568570857))
      by (vm_compute; reflexivity).
    cbn [Binary64.bind].
    rewrite (binary64_refine_ext libm_pow Binary64.square_pow).
    + vm_compute. reflexivity.
    + intros k Hk.
      destruct k as [ | k]; [vm_compute in H3 |- *; exact H3 | ].
      lia.
Qed.

Lemma larger_load_smaller_width_witness :
  Binary64.square_pow 1.4247806848775006 2
  = 1.4247806848775006 * 1.4247806848775006 /\
  Binary64.square_pow 1.4347806848775007 2
  = 1.4347806848775007 * 1.4347806848775007 /\
  Binary64.square_pow 1.42828568570857 2
  = 1.42828568570857 * 1.42828568570857 /\
  Binary64.solve_pad Binary64.square_pow
                     101.5 0 0 0 100 0.5 0.5 0.75 0.2 false 2
  = Binary64.Ok (Some {| Binary64.B_opt := 1.4347806848775007;
                         Binary64.t := 0.7173903424387503;
                         Binary64.N_ck_initial := 101.5;
                         Binary64.q_target := 50 |}) /\
  Binary64.solve_pad Binary64.square_pow
                     102 0 0 0 100 0.5 0.5 0.75 0.2 false 1
  = Binary64.Ok (Some {| Binary64.B_opt := 1.42828568570857;
                         Binary64.t := 0.714142842854285;
                         Binary64.N_ck_initial := 102;
                         Binary64.q_target := 50 |}) /\
  (101.5 <? 102) = true /\
  (1.42828568570857 <? 1.4347806848775007) = true.
Proof.
  assert (H1 : Binary64.square_pow 1.4247806848775006 2
               = 1.4247806848775006 * 1.4247806848775006) by reflexivity.
  assert (H2 : Binary64.square_pow 1.4347806848775007 2
               = 1.4347806848775007 * 1.4347806848775007) by reflexivity.
  assert (H3 : Binary64.square_pow 1.42828568570857 2
               = 1.42828568570857 * 1.42828568570857) by reflexivity.
  split; [exact H1 | ]. split; [exact H2 | ]. split; [exact H3 | ].
  exact (larger_load_smaller_width Binary64.square_pow H1 H2 H3).
Defined.

End MonotonicityOnFloats.

(** * Further properties of the code *)

(** ** The rounding helpers *)

Lemma round_down_ok (value inc : R) :
  inc <> 0 ->
  round_down value inc = Ok (IZR (Py.math_floor (value / inc)) * inc).
Proof.
  intros Hinc. unfold round_down. rewrite truediv_ok by exact Hinc. reflexivity.
Qed.

(** X2. A negative increment turns each helper into the other: rounding "up"
    to a multiple of [- inc] is rounding down to a multiple of [inc], and
    the other way round. *)
Theorem negative_increment_swaps_direction (value inc : R) :
  inc <> 0 ->
  round_up value (- inc) = round_down value inc /\
  round_down value (- inc) = round_up value inc.
Proof.
  intros Hinc.
  assert (Hn : - inc <> 0) by lra.
  assert (E : value / - inc = - (value / inc)) by (field; exact Hinc).
  rewrite (round_up_ok _ _ Hn), (round_down_ok _ _ Hn).
  rewrite (round_up_ok _ _ Hinc), (round_down_ok _ _ Hinc).
  rewrite E. unfold Py.math_ceil, Py.math_floor.
  rewrite ZceilN, ZfloorN. rewrite !opp_IZR.
  split; f_equal; ring.
Qed.

Lemma negative_increment_swaps_direction_witness :
  0.20 <> 0 /\
  round_up 1.5 (- (0.20)) = round_down 1.5 0.20 /\
  round_down 1.5 (- (0.20)) = round_up 1.5 0.20.
Proof.
  assert (H : 0.20 <> 0) by lra.
  split; [exact H | ]. exact (negative_increment_swaps_direction 1.5 0.20 H).
Defined.

(** X5. A wider pad is never rounded to a narrower one. *)
Theorem round_up_monotone (v w inc : R) :
  0 < inc -> v <= w ->
  exists a b : R,
    round_up v inc = Ok a /\ round_up w inc = Ok b /\ a <= b.
Proof.
  intros Hinc Hvw.
  exists (IZR (Py.math_ceil (v / inc)) * inc),
         (IZR (Py.math_ceil (w / inc)) * inc).
  split; [apply round_up_ok; lra | ].
  split; [apply round_up_ok; lra | ].
  apply Rmult_le_compat_r; [lra | ].
  apply IZR_le. unfold Py.math_ceil. apply Zceil_le.
  unfold Rdiv. apply Rmult_le_compat_r; [ | exact Hvw].
  apply Rlt_le, Rinv_0_lt_compat. exact Hinc.
Qed.

Lemma round_up_monotone_witness :
  0 < 0.20 /\ 1.5 <= 1.7 /\
  exists a b : R,
    round_up 1.5 0.20 = Ok a /\ round_up 1.7 0.20 = Ok b /\ a <= b.
Proof.
  assert (H1 : 0 < 0.20) by lra.
  assert (H2 : 1.5 <= 1.7) by lra.
  split; [exact H1 | ]. split; [exact H2 | ].
  exact (round_up_monotone 1.5 1.7 0.20 H1 H2).
Defined.

(** ** Where the solver can raise, return or hang *)

Section LoopOutcomes.

Variables (G Q Sur_G Sur_Q q_allow target_utilisation : R).
Variable include_self_weight : bool.

(** Started at a positive width with a non-zero allowable pressure, the
    loop never raises: every later width is positive as well. *)
Lemma refine_no_raise (n : nat) :
  forall (B : R) (e : exn),
    0 < B -> q_allow <> 0 ->
    refine G Q Sur_G Sur_Q q_allow target_utilisation include_self_weight
           n B <> Raise e.
Proof.
  induction n as [ | n IH]; intros B e HB Hqa.
  - discriminate.
  - destruct (loop_body_ok G Q Sur_G Sur_Q q_allow include_self_weight B)
      as (l & Hl & _); [lra | exact Hqa | ].
    simpl. rewrite Hl. cbn [bind].
    destruct (Rgt_dec (trial_util l) target_utilisation).
    + apply IH; [unfold_consts; lra | exact Hqa].
    + discriminate.
Qed.


End LoopOutcomes.

Lemma base_load_as_sum (G Q : R) : gamma_G * G + gamma_Q * Q = G + Q.
Proof. unfold_consts. lra. Qed.


Lemma seed_width_sum (G Q q_allow tu mw : R) :
  0 < tu * q_allow -> 0 <= G + Q ->
  seed_width G Q q_allow tu mw
  = Ok (gamma_G * G + gamma_Q * Q, tu * q_allow,
        Py.max (sqrt ((G + Q) / (tu * q_allow))) mw).
Proof.
  intros Hqt HN.
  rewrite seed_width_ok.
  - rewrite base_load_as_sum. reflexivity.
  - lra.
  - rewrite base_load_as_sum. unfold Rdiv.
    apply Rmult_le_pos; [exact HN | ].
    apply Rlt_le, Rinv_0_lt_compat. exact Hqt.
Qed.

(** X6. The minimum width is enforced, before and after rounding, and so is
    the width the column loads alone would need at the target pressure:
    a converged width is below neither, and with a positive rounding
    increment the stored width is not below the minimum width either. *)
Theorem minimum_width_respected (fuel : nat) (c : inputs) (p : pad)
        (r : solution) :
  call_solve_pad fuel c p = Ok (Some r) ->
  in_min_width c <= B_opt r /\
  sqrt ((pad_G p + pad_Q p) / (in_target_utilisation c * in_q_allow c))
  <= B_opt r /\
  (0 < in_rounding c ->
   exists res, post_process c p r = Ok res /\ in_min_width c <= B_final res).
Proof.
  intros Hr.
  pose proof Hr as Hc. unfold call_solve_pad in Hc.
  apply solve_pad_converged in Hc.
  destruct Hc as (B0 & k & l & Hseed & _ & _ & HB & _).
  apply seed_width_Ok_inv in Hseed.
  destruct Hseed as (EN & Eqt & _ & _ & EB0).
  rewrite EN, Eqt, base_load_as_sum in EB0.
  assert (Hstep : 0 <= INR k * B_REFINE_STEP).
  { apply Rmult_le_pos; [apply pos_INR | unfold_consts; lra]. }
  pose proof (max_ge_left
                (sqrt ((pad_G p + pad_Q p)
                       / (in_target_utilisation c * in_q_allow c)))
                (in_min_width c)) as H1.
  pose proof (max_ge_right
                (sqrt ((pad_G p + pad_Q p)
                       / (in_target_utilisation c * in_q_allow c)))
                (in_min_width c)) as H2.
  rewrite <- EB0 in H1, H2.
  split; [lra | ]. split; [lra | ].
  intros Hinc.
  destruct (post_process_total _ _ _ _ Hr Hinc) as (res & Hres & Hge).
  exists res. split; [exact Hres | lra].
Qed.

Lemma minimum_width_respected_witness :
  call_solve_pad 2 Sample.form3 Sample.pad3 = Ok (Some Sample.solution3) /\
  in_min_width Sample.form3 <= B_opt Sample.solution3 /\
  sqrt ((pad_G Sample.pad3 + pad_Q Sample.pad3)
        / (in_target_utilisation Sample.form3 * in_q_allow Sample.form3))
  <= B_opt Sample.solution3 /\
  (0 < in_rounding Sample.form3 ->
   exists res,
     post_process Sample.form3 Sample.pad3 Sample.solution3 = Ok res /\
     in_min_width Sample.form3 <= B_final res).
Proof.
  split; [exact solve_pad3 | ].
  exact (minimum_width_respected 2 Sample.form3 Sample.pad3 Sample.solution3
                                 solve_pad3).
Defined.














(** X14. An unloaded pad without a minimum width divides by zero.  With a
    target pressure that is not zero, column loads that cancel out and a
    minimum width that is not positive, the seed is computed, the first
    trial width is zero, and the first pass of the loop raises
    [ZeroDivisionError], whatever the surcharges and with or without
    self-weight. *)
Theorem zero_width_raises_in_first_pass
        (G Q Sur_G Sur_Q q_allow target_utilisation min_width : R)
        (min_depth rounding : R) (include_self_weight : bool)
        (fuel : nat) :
  target_utilisation * q_allow <> 0 ->
  G + Q = 0 ->
  min_width <= 0 ->
  seed_width G Q q_allow target_utilisation min_width
  = Ok (gamma_G * G + gamma_Q * Q, target_utilisation * q_allow, 0) /\
  solve_pad G Q Sur_G Sur_Q q_allow target_utilisation min_width
            min_depth rounding include_self_weight (S fuel)
  = Raise ZeroDivisionError.
Proof.
  intros Hnz HN Hmw.
  assert (HA : (gamma_G * G + gamma_Q * Q) / (target_utilisation * q_allow)
               = 0)
    by (rewrite base_load_as_sum, HN; unfold Rdiv; ring).
  assert (Hseed : seed_width G Q q_allow target_utilisation min_width
                  = Ok (gamma_G * G + gamma_Q * Q,
                        target_utilisation * q_allow, 0)).
  { rewrite seed_width_ok.
    - rewrite HA, sqrt_0, (max_left 0 min_width Hmw). reflexivity.
    - exact Hnz.
    - rewrite HA. lra. }
  split; [exact Hseed | ].
  unfold solve_pad. rewrite Hseed. cbn [bind refine].
  rewrite loop_body_zero_width. reflexivity.
Qed.

Lemma zero_width_raises_in_first_pass_witness :
  in_target_utilisation Sample.form * in_q_allow Sample.form <> 0 /\
  pad_G Edge.pad_unloaded + pad_Q Edge.pad_unloaded = 0 /\
  0 <= 0 /\
  seed_width (pad_G Edge.pad_unloaded) (pad_Q Edge.pad_unloaded)
             (in_q_allow Sample.form) (in_target_utilisation Sample.form) 0
  = Ok (gamma_G * pad_G Edge.pad_unloaded + gamma_Q * pad_Q Edge.pad_unloaded,
        in_target_utilisation Sample.form * in_q_allow Sample.form, 0) /\
  solve_pad (pad_G Edge.pad_unloaded) (pad_Q Edge.pad_unloaded)
            (pad_Sur_G Edge.pad_unloaded) (pad_Sur_Q Edge.pad_unloaded)
            (in_q_allow Sample.form) (in_target_utilisation Sample.form) 0
            (in_min_depth Sample.form) (in_rounding Sample.form)
            (in_include_self_weight Sample.form) 1
  = Raise ZeroDivisionError.
Proof.
  assert (H1 : in_target_utilisation Sample.form * in_q_allow Sample.form
               <> 0) by (simpl; lra).
  assert (H2 : pad_G Edge.pad_unloaded + pad_Q Edge.pad_unloaded = 0)
    by (simpl; lra).
  assert (H3 : 0 <= 0) by lra.
  split; [exact H1 | ]. split; [exact H2 | ]. split; [exact H3 | ].
  exact (zero_width_raises_in_first_pass
           (pad_G Edge.pad_unloaded) (pad_Q Edge.pad_unloaded)
           (pad_Sur_G Edge.pad_unloaded) (pad_Sur_Q Edge.pad_unloaded)
           (in_q_allow Sample.form) (in_target_utilisation Sample.form) 0
           (in_min_depth Sample.form) (in_rounding Sample.form)
           (in_include_self_weight Sample.form) 0 H1 H2 H3).
Defined.

(** ** The session *)

Lemma size_pad_keeps_pad (fuel : nat) (c : inputs) (p p' : pad) :
  size_pad fuel c p = Ok p' ->
  pad_id p' = pad_id p /\ pad_G p' = pad_G p /\ pad_Q p' = pad_Q p /\
  pad_Sur_G p' = pad_Sur_G p /\ pad_Sur_Q p' = pad_Sur_Q p /\
  exists res,
    results p' = Some res /\
    t_round res = B_final res / 2 /\
    volume res = B_final res ^ 2 * t_round res.
Proof.
  intros H. apply size_pad_Ok_inv in H.
  destruct H as (r & res & _ & Hres & ->).
  apply post_process_Ok_inv in Hres.
  destruct Hres as (_ & _ & _ & _ & Ht & _ & _ & _ & Hv).
  simpl. repeat split; try reflexivity.
  exists res. repeat split; [lra | exact Hv].
Qed.

Lemma calculations_Ok_iff (fuel : nat) (c : inputs) (pads : list pad) :
  forall pads',
    calculations fuel c pads = Ok pads'
    <-> Forall2 (fun p p' => size_pad fuel c p = Ok p') pads pads'.
Proof.
  induction pads as [ | p rest IH]; intros pads'.
  - simpl. split.
    + intros H. apply Ok_inj in H. subst pads'. constructor.
    + intros H. inversion H. reflexivity.
  - simpl. split.
    + intros H.
      apply bind_Ok_inv in H. destruct H as (p' & Hp & H).
      apply bind_Ok_inv in H. destruct H as (rest' & Hrest & H).
      apply Ok_inj in H. subst pads'.
      constructor; [exact Hp | apply IH; exact Hrest].
    + intros H. inversion H as [ | p0 p' l rest' Hp Hrest]. subst.
      rewrite Hp. cbn [bind].
      apply IH in Hrest. rewrite Hrest. reflexivity.
Qed.

Lemma calculations_keep_ids (fuel : nat) (c : inputs) (pads : list pad) :
  forall pads',
    calculations fuel c pads = Ok pads' ->
    map pad_id pads' = map pad_id pads /\ length pads' = length pads.
Proof.
  intros pads' H. apply calculations_Ok_iff in H.
  induction H as [ | p p' l l' Hp _ [IH1 IH2]].
  - split; reflexivity.
  - apply size_pad_keeps_pad in Hp. destruct Hp as (Hid & _).
    simpl. rewrite Hid, IH1, IH2. split; reflexivity.
Qed.

Lemma add_pad_length (pads : list pad) (G Q Sur_G Sur_Q : R) :
  length (add_pad pads G Q Sur_G Sur_Q) = S (length pads).
Proof. unfold add_pad. rewrite length_app. simpl. lia. Qed.

Lemma add_pad_well_numbered (pads : list pad) (G Q Sur_G Sur_Q : R) :
  well_numbered pads -> well_numbered (add_pad pads G Q Sur_G Sur_Q).
Proof.
  unfold well_numbered. intros H.
  rewrite add_pad_length. unfold add_pad.
  rewrite map_app, seq_S, map_app, H. simpl.
  do 2 f_equal. lia.
Qed.

(** X16. The ids of a session stay [1, 2, ..., n] in the order of the list: a
    run of the script that starts from a session numbered this way and
    completes leaves a session numbered this way, one pad longer when the
    button was pressed and as long as before otherwise, and the pads that
    were there keep their place, id and loads. *)
Theorem script_run_keeps_numbering (fuel : nat) (c : inputs)
        (click : option (R * R * R * R)) (pads pads' : list pad) :
  well_numbered pads ->
  script_run fuel c click pads = Ok pads' ->
  well_numbered pads' /\
  length pads'
  = (length pads + match click with Some _ => 1 | None => 0 end)%nat /\
  forall (i : nat) (p : pad),
    nth_error pads i = Some p ->
    exists p',
      nth_error pads' i = Some p' /\
      pad_id p' = pad_id p /\ pad_G p' = pad_G p /\ pad_Q p' = pad_Q p /\
      pad_Sur_G p' = pad_Sur_G p /\ pad_Sur_Q p' = pad_Sur_Q p.
Proof.
  intros Hwn Hrun. unfold script_run in Hrun.
  set (pads1 := match click with
                | Some (G, Q, Sur_G, Sur_Q) => add_pad pads G Q Sur_G Sur_Q
                | None => pads
                end) in Hrun.
  assert (Hwn1 : well_numbered pads1).
  { unfold pads1. destruct click as [[[[G Q] SG] SQ] | ];
      [apply add_pad_well_numbered | ]; exact Hwn. }
  assert (Hlen1 : length pads1
                  = (length pads
                     + match click with Some _ => 1 | None => 0 end)%nat).
  { unfold pads1. destruct click as [[[[G Q] SG] SQ] | ].
    - rewrite add_pad_length. lia.
    - lia. }
  assert (Hnth1 : forall i p, nth_error pads i = Some p ->
                              nth_error pads1 i = Some p).
  { intros i p Hi. unfold pads1. destruct click as [[[[G Q] SG] SQ] | ].
    - unfold add_pad. rewrite nth_error_app1; [exact Hi | ].
      apply nth_error_Some. congruence.
    - exact Hi. }
  pose proof (calculations_keep_ids _ _ _ _ Hrun) as [Hids Hlen].
  split.
  { unfold well_numbered in *. rewrite Hids, Hlen. exact Hwn1. }
  split; [lia | ].
  intros i p Hi. apply Hnth1 in Hi.
  apply calculations_Ok_iff in Hrun.
  clear - Hrun Hi. revert i Hi.
  induction Hrun as [ | q q' l l' Hq _ IH]; intros i Hi.
  - destruct i; discriminate.
  - destruct i as [ | i].
    + simpl in Hi. injection Hi as ->. exists q'. split; [reflexivity | ].
      apply size_pad_keeps_pad in Hq. tauto.
    + simpl in Hi. apply IH in Hi. exact Hi.
Qed.

Lemma first_pad_run :
  script_run 1 Sample.form (Some (100.0, 50.0, 0.0, 0.0)) initial_pads
  = Ok [set_results Sample.pad1 Sample.results1].
Proof.
  change (script_run 1 Sample.form (Some (100.0, 50.0, 0.0, 0.0))
                     initial_pads)
    with (calculations 1 Sample.form [Sample.pad1]).
  cbn [calculations]. rewrite size_pad1. reflexivity.
Qed.

Lemma initial_pads_well_numbered : well_numbered initial_pads.
Proof. reflexivity. Qed.

Lemma script_run_keeps_numbering_witness :
  well_numbered initial_pads /\
  script_run 1 Sample.form (Some (100.0, 50.0, 0.0, 0.0)) initial_pads
  = Ok [set_results Sample.pad1 Sample.results1] /\
  well_numbered [set_results Sample.pad1 Sample.results1] /\
  length [set_results Sample.pad1 Sample.results1]
  = (length initial_pads + 1)%nat.
Proof.
  split; [exact initial_pads_well_numbered | ].
  split; [exact first_pad_run | ].
  destruct (script_run_keeps_numbering
              1 Sample.form (Some (100.0, 50.0, 0.0, 0.0)) initial_pads
              [set_results Sample.pad1 Sample.results1]
              initial_pads_well_numbered first_pad_run) as (H1 & H2 & _).
  split; [exact H1 | exact H2].
Defined.

Lemma two_pads_run :
  calculations 1 Sample.form [Sample.pad1; Sample.pad2]
  = Ok [set_results Sample.pad1 Sample.results1;
        set_results Sample.pad2 Sample.results2].
Proof.
  cbn [calculations]. rewrite size_pad1, size_pad2. reflexivity.
Qed.

(** X17. After the calculation block has completed, the summary table can
    always be built: every pad carries results, so the lookup of
    ["results"] fails for none of them; the table has one row per pad, in
    the order of the session and under the pad's id, and in every row the
    depth is half the width and the volume is width squared times depth.
    With no pads the column shows the note instead of a table. *)
Theorem summary_table_after_calculations (fuel : nat) (c : inputs)
        (pads pads' : list pad) :
  calculations fuel c pads = Ok pads' ->
  exists rows,
    summary_data pads' = Some rows /\
    map row_pad_id rows = map pad_id pads /\
    Forall (fun row => row_depth row = row_width row / 2 /\
                       row_volume row = row_width row ^ 2 * row_depth row)
           rows /\
    results_column pads'
    = Some (match pads with
            | [] => No_pads_info
            | _ :: _ => Summary_table rows
            end).
Proof.
  intros H. apply calculations_Ok_iff in H.
  assert (Hrows : exists rows,
             summary_data pads' = Some rows /\
             map row_pad_id rows = map pad_id pads /\
             Forall (fun row =>
                       row_depth row = row_width row / 2 /\
                       row_volume row = row_width row ^ 2 * row_depth row)
                    rows).
  { induction H as [ | p p' l l' Hp _ (rows & IH1 & IH2 & IH3)].
    - exists []. repeat split; constructor.
    - apply size_pad_keeps_pad in Hp.
      destruct Hp as (Hid & _ & _ & _ & _ & res & Hres & Ht & Hv).
      simpl. rewrite Hres, IH1. eexists. split; [reflexivity | ].
      split.
      + simpl. rewrite Hid, IH2. reflexivity.
      + constructor; [simpl; split; assumption | exact IH3]. }
  destruct Hrows as (rows & H1 & H2 & H3).
  exists rows. repeat split; try assumption.
  inversion H as [ | p p' l l' Hp Hl]; subst.
  - reflexivity.
  - unfold results_column. rewrite H1. reflexivity.
Qed.

Lemma summary_table_after_calculations_witness :
  calculations 1 Sample.form [Sample.pad1; Sample.pad2]
  = Ok [set_results Sample.pad1 Sample.results1;
        set_results Sample.pad2 Sample.results2] /\
  exists rows,
    summary_data [set_results Sample.pad1 Sample.results1;
                  set_results Sample.pad2 Sample.results2] = Some rows /\
    map row_pad_id rows = map pad_id [Sample.pad1; Sample.pad2] /\
    Forall (fun row => row_depth row = row_width row / 2 /\
                       row_volume row = row_width row ^ 2 * row_depth row)
           rows /\
    results_column [set_results Sample.pad1 Sample.results1;
                    set_results Sample.pad2 Sample.results2]
    = Some (Summary_table rows).
Proof.
  split; [exact two_pads_run | ].
  exact (summary_table_after_calculations
           1 Sample.form [Sample.pad1; Sample.pad2] _ two_pads_run).
Defined.

(** X18. A run of the script in which the button is not pressed changes
    nothing in a session the script has already sized under the same
    inputs: every pad gets the results it already had. *)
Theorem script_rerun_is_stable (fuel : nat) (c : inputs)
        (click : option (R * R * R * R)) (pads pads' : list pad) :
  script_run fuel c click pads = Ok pads' ->
  script_run fuel c None pads' = Ok pads'.
Proof.
  unfold script_run. intros H.
  apply calculations_Ok_iff in H. apply calculations_Ok_iff.
  clear - H.
  induction H as [ | p p' l l' Hp _ IH].
  - constructor.
  - constructor; [ | exact IH].
    exact (size_pad_rerun _ _ _ _ Hp).
Qed.

Lemma script_rerun_is_stable_witness :
  script_run 1 Sample.form (Some (100.0, 50.0, 0.0, 0.0)) initial_pads
  = Ok [set_results Sample.pad1 Sample.results1] /\
  script_run 1 Sample.form None [set_results Sample.pad1 Sample.results1]
  = Ok [set_results Sample.pad1 Sample.results1].
Proof.
  split; [exact first_pad_run | ].
  exact (script_rerun_is_stable 1 Sample.form
                                (Some (100.0, 50.0, 0.0, 0.0))
                                initial_pads _ first_pad_run).
Defined.

(** ** What the block stores *)




(** ** Through the form *)

Lemma form_accepts_positive (c : inputs) :
  form_accepts c ->
  0 < in_q_allow c /\ 0 < in_target_utilisation c /\
  0 < in_rounding c /\ 0 < in_min_width c.
Proof.
  intros (Hqa & Hr & (k & Hk & Htu) & Hmw & _).
  assert (Hk5 : IZR 50 <= IZR (5 * k)) by (apply IZR_le; lia).
  repeat split; lra.
Qed.

Lemma form_accepted : form_accepts Sample.form.
Proof.
  unfold form_accepts, Sample.form. simpl.
  split; [lra | ]. split; [right; reflexivity | ].
  split; [exists 18%Z; split; [lia | simpl; lra] | ].
  split; lra.
Qed.

(** X20. With the inputs the widgets let through, loads that are not negative
    never make the sizing of a pad raise: the pass of the calculation
    block stores results or is still in the solver's loop, and when the
    solver has returned the rest of the pass completes. *)
Theorem form_inputs_never_raise (fuel : nat) (c : inputs) (p : pad)
        (e : exn) :
  form_accepts c ->
  0 <= pad_G p + pad_Q p ->
  size_pad fuel c p <> Raise e /\
  (forall r, call_solve_pad fuel c p = Ok (Some r) ->
             exists res, size_pad fuel c p = Ok (set_results p res)).
Proof.
  intros Hform HN.
  destruct (form_accepts_positive c Hform) as (Hqa & Htu & Hinc & Hmw).
  assert (Hcomplete : forall r, call_solve_pad fuel c p = Ok (Some r) ->
            exists res, size_pad fuel c p = Ok (set_results p res)).
  { intros r Hr.
    destruct (post_process_total _ _ _ _ Hr Hinc) as (res & Hres & _).
    exists res. apply (size_pad_ok _ _ _ r); assumption. }
  split; [ | exact Hcomplete].
  set (qt := in_target_utilisation c * in_q_allow c).
  assert (Hqt : 0 < qt) by (apply Rmult_lt_0_compat; assumption).
  pose proof (seed_width_sum (pad_G p) (pad_Q p) (in_q_allow c)
                             (in_target_utilisation c) (in_min_width c)
                             Hqt HN) as Hseed.
  fold qt in Hseed.
  pose proof (max_ge_right (sqrt ((pad_G p + pad_Q p) / qt))
                           (in_min_width c)) as Hge.
  intros Hraise. unfold size_pad in Hraise.
  destruct (call_solve_pad fuel c p) as [[r | ] | e0 | ] eqn:Hcall;
    cbn [bind] in Hraise.
  - destruct (Hcomplete r eq_refl) as (res & Hsz).
    unfold size_pad in Hsz. rewrite Hcall in Hsz. cbn [bind] in Hsz.
    congruence.
  - discriminate.
  - unfold call_solve_pad, solve_pad in Hcall. fold qt in Hcall.
    rewrite Hseed in Hcall. cbn [bind] in Hcall.
    destruct (refine (pad_G p) (pad_Q p) (pad_Sur_G p) (pad_Sur_Q p)
                     (in_q_allow c) (in_target_utilisation c)
                     (in_include_self_weight c) fuel
                     (Py.max (sqrt ((pad_G p + pad_Q p) / qt))
                             (in_min_width c)))
      as [[B t0] | e1 | ] eqn:Hrun; cbn [bind] in Hcall; try discriminate.
    apply (refine_no_raise _ _ _ _ _ _ _ _ _ e1) in Hrun; [exact Hrun | | ];
      lra.
  - discriminate.
Qed.

Lemma form_inputs_never_raise_witness :
  form_accepts Sample.form /\
  0 <= pad_G Sample.pad1 + pad_Q Sample.pad1 /\
  size_pad 1 Sample.form Sample.pad1 <> Raise ValueError /\
  (forall r, call_solve_pad 1 Sample.form Sample.pad1 = Ok (Some r) ->
             exists res,
               size_pad 1 Sample.form Sample.pad1
               = Ok (set_results Sample.pad1 res)).
Proof.
  assert (H : 0 <= pad_G Sample.pad1 + pad_Q Sample.pad1) by (simpl; lra).
  split; [exact form_accepted | ]. split; [exact H | ].
  exact (form_inputs_never_raise 1 Sample.form Sample.pad1 ValueError
                                 form_accepted H).
Defined.

(** X21. The load inputs have no lower bound.  With the inputs the widgets let
    through, a pad whose dead and live load sum to less than zero stops
    the script with [ValueError], raised by the square root of the seed,
    before any pass of the loop, and no pad after it in the session is
    sized. *)
Theorem net_uplift_raises (fuel : nat) (c : inputs) (p : pad)
        (before after : list pad) (sized : list pad) :
  form_accepts c ->
  pad_G p + pad_Q p < 0 ->
  calculations fuel c before = Ok sized ->
  seed_width (pad_G p) (pad_Q p) (in_q_allow c) (in_target_utilisation c)
             (in_min_width c) = Raise ValueError /\
  size_pad fuel c p = Raise ValueError /\
  calculations fuel c (before ++ p :: after) = Raise ValueError.
Proof.
  intros Hform HN Hbefore.
  destruct (form_accepts_positive c Hform) as (Hqa & Htu & _ & _).
  set (qt := in_target_utilisation c * in_q_allow c).
  assert (Hqt : 0 < qt) by (apply Rmult_lt_0_compat; assumption).
  assert (Hseed : seed_width (pad_G p) (pad_Q p) (in_q_allow c)
                             (in_target_utilisation c) (in_min_width c)
                  = Raise ValueError).
  { unfold seed_width. fold qt. rewrite truediv_ok by lra. cbn [bind].
    rewrite math_sqrt_neg; [reflexivity | ].
    rewrite base_load_as_sum.
    assert (Hi : 0 < / qt) by (apply Rinv_0_lt_compat; exact Hqt).
    unfold Rdiv. nra. }
  assert (Hsize : size_pad fuel c p = Raise ValueError).
  { unfold size_pad, call_solve_pad.
    rewrite (solve_pad_seed_raises _ _ _ _ _ _ _ _ _ _ _ _ Hseed).
    reflexivity. }
  split; [exact Hseed | ]. split; [exact Hsize | ].
  clear - Hbefore Hsize. revert sized Hbefore.
  induction before as [ | q rest IH]; intros sized Hbefore.
  - simpl. rewrite Hsize. reflexivity.
  - simpl in Hbefore |- *.
    apply bind_Ok_inv in Hbefore. destruct Hbefore as (q' & Hq & Hb).
    apply bind_Ok_inv in Hb. destruct Hb as (rest' & Hrest & _).
    rewrite Hq. cbn [bind]. rewrite (IH _ Hrest). reflexivity.
Qed.

Lemma one_pad_run :
  calculations 1 Sample.form [Sample.pad1]
  = Ok [set_results Sample.pad1 Sample.results1].
Proof. cbn [calculations]. rewrite size_pad1. reflexivity. Qed.

Lemma net_uplift_raises_witness :
  form_accepts Sample.form /\
  pad_G Edge.pad_uplift + pad_Q Edge.pad_uplift < 0 /\
  calculations 1 Sample.form [Sample.pad1]
  = Ok [set_results Sample.pad1 Sample.results1] /\
  seed_width (pad_G Edge.pad_uplift) (pad_Q Edge.pad_uplift)
             (in_q_allow Sample.form) (in_target_utilisation Sample.form)
             (in_min_width Sample.form) = Raise ValueError /\
  size_pad 1 Sample.form Edge.pad_uplift = Raise ValueError /\
  calculations 1 Sample.form
               ([Sample.pad1] ++ Edge.pad_uplift :: [Sample.pad2])
  = Raise ValueError.
Proof.
  assert (H : pad_G Edge.pad_uplift + pad_Q Edge.pad_uplift < 0)
    by (simpl; lra).
  split; [exact form_accepted | ]. split; [exact H | ].
  split; [exact one_pad_run | ].
  exact (net_uplift_raises 1 Sample.form Edge.pad_uplift
                           [Sample.pad1] [Sample.pad2] _
                           form_accepted H one_pad_run).
Defined.

(** ** The largest load the method can carry with self-weight *)






(** ** The seed under self-weight *)

Lemma seed_pad_heavy :
  seed_width 10800.0 0.0 3000.0 0.90 1.5 = Ok (10800, 2700, 2.0).
Proof.
  rewrite seed_width_ok by (unfold_consts; lra).
  assert (E : (gamma_G * 10800.0 + gamma_Q * 0.0) / (0.90 * 3000.0) = 2 * 2)
    by (unfold_consts; lra).
  rewrite E, sqrt_square by lra.
  rewrite max_left by lra.
  repeat f_equal; unfold_consts; lra.
Qed.

Lemma solve_pad_heavy :
  call_solve_pad 2 Edge.form_rock Edge.pad_heavy
  = Ok (Some Edge.solution_heavy).
Proof.
  unfold call_solve_pad, solve_pad, Edge.form_rock, Edge.pad_heavy.
  cbn [pad_G pad_Q pad_Sur_G pad_Sur_Q in_q_allow in_target_utilisation
       in_min_width in_include_self_weight].
  rewrite seed_pad_heavy. cbn [bind].
  destruct (loop_body_ok 10800.0 0.0 0.0 0.0 3000.0 true 2.0)
    as (l0 & Hl0 & _ & _ & _ & Hu0); [lra | lra | ].
  rewrite (refine_continue _ _ _ _ _ _ _ 1 2.0 l0 Hl0).
  - destruct (loop_body_ok 10800.0 0.0 0.0 0.0 3000.0 true
                           (2.0 + B_REFINE_STEP))
      as (l1 & Hl1 & Ht1 & _ & _ & Hu1);
      [unfold_consts; lra | lra | ].
    rewrite (refine_break _ _ _ _ _ _ _ 0 _ l1 Hl1).
    + cbn [bind]. rewrite Ht1. do 2 apply f_equal.
      unfold Edge.solution_heavy. unfold_consts. f_equal; lra.
    + rewrite Hu1. intros Hgt.
      apply util_at_gt_iff in Hgt; [ | unfold_consts; lra | lra].
      unfold load_at, sw_coeff in Hgt. unfold_consts. lra.
  - rewrite Hu0. apply util_at_gt_iff; [lra | lra | ].
    unfold load_at, sw_coeff. lra.
Qed.

(** X24. With self-weight the load-only seed is never the answer.  When the
    seed comes from the column loads (the minimum width is not above it),
    the loads are positive and the surcharges are not negative, the first
    pass fails, and a converged width is at least one refine step above
    [sqrt((G + Q) / q_target)]. *)
Theorem seed_is_too_narrow_with_self_weight
        (fuel : nat) (c : inputs) (p : pad) (r : solution) :
  in_include_self_weight c = true ->
  0 < in_q_allow c -> 0 < in_target_utilisation c ->
  0 < pad_G p + pad_Q p ->
  0 <= pad_Sur_G p + pad_Sur_Q p ->
  in_min_width c
  <= sqrt ((pad_G p + pad_Q p)
           / (in_target_utilisation c * in_q_allow c)) ->
  call_solve_pad fuel c p = Ok (Some r) ->
  sqrt ((pad_G p + pad_Q p) / (in_target_utilisation c * in_q_allow c))
  + B_REFINE_STEP <= B_opt r.
Proof.
  intros Hsw Hqa Htu HN HS Hmw Hr.
  set (qt := in_target_utilisation c * in_q_allow c) in *.
  assert (Hqt : 0 < qt) by (apply Rmult_lt_0_compat; assumption).
  unfold call_solve_pad in Hr. apply solve_pad_converged in Hr.
  destruct Hr as (B0 & k & l & Hseed & _ & _ & HB & Hpos & Hl & _ & Hu & _).
  apply seed_width_Ok_inv in Hseed.
  destruct Hseed as (EN & Eqt & _ & _ & EB0).
  rewrite EN, Eqt, base_load_as_sum in EB0. fold qt in EB0.
  set (N := pad_G p + pad_Q p) in *.
  set (s := sqrt (N / qt)) in *.
  rewrite max_left in EB0 by exact Hmw. subst B0.
  assert (Hs : 0 < s).
  { apply sqrt_lt_R0. apply Rdiv_lt_0_compat; assumption. }
  assert (Es : qt * s ^ 2 = N) by (apply sqrt_quotient_sq; lra).
  assert (Hstep : 0 < B_REFINE_STEP) by (unfold_consts; lra).
  destruct k as [ | j].
  - (* the seed itself would have met the target *)
    exfalso. simpl in HB. rewrite Rmult_0_l, Rplus_0_r in HB.
    pose proof (loop_body_Ok_inv _ _ _ _ _ _ _ _ Hl)
      as (_ & _ & _ & _ & _ & Eu).
    rewrite Eu in Hu.
    apply util_at_le_iff in Hu; [ | exact Hpos | exact Hqa].
    rewrite Hsw, HB in Hu. unfold load_at, sw_coeff in Hu.
    fold qt N in Hu.
    assert (0 <= (pad_Sur_G p + pad_Sur_Q p) * s ^ 2)
      by (apply Rmult_le_pos; [exact HS | apply pow2_ge_0]).
    assert (0 < 12 * s ^ 3).
    { apply Rmult_lt_0_compat; [lra | apply pow_lt; exact Hs]. }
    lra.
  - rewrite S_INR in HB.
    assert (0 <= INR j * B_REFINE_STEP)
      by (apply Rmult_le_pos; [apply pos_INR | lra]).
    lra.
Qed.

Lemma seed_is_too_narrow_with_self_weight_witness :
  in_include_self_weight Edge.form_rock = true /\
  0 < in_q_allow Edge.form_rock /\
  0 < in_target_utilisation Edge.form_rock /\
  0 < pad_G Edge.pad_heavy + pad_Q Edge.pad_heavy /\
  0 <= pad_Sur_G Edge.pad_heavy + pad_Sur_Q Edge.pad_heavy /\
  in_min_width Edge.form_rock
  <= sqrt ((pad_G Edge.pad_heavy + pad_Q Edge.pad_heavy)
           / (in_target_utilisation Edge.form_rock
              * in_q_allow Edge.form_rock)) /\
  call_solve_pad 2 Edge.form_rock Edge.pad_heavy
  = Ok (Some Edge.solution_heavy) /\
  sqrt ((pad_G Edge.pad_heavy + pad_Q Edge.pad_heavy)
        / (in_target_utilisation Edge.form_rock
           * in_q_allow Edge.form_rock))
  + B_REFINE_STEP <= B_opt Edge.solution_heavy.
Proof.
  assert (H0 : in_include_self_weight Edge.form_rock = true) by reflexivity.
  assert (H1 : 0 < in_q_allow Edge.form_rock) by (simpl; lra).
  assert (H2 : 0 < in_target_utilisation Edge.form_rock) by (simpl; lra).
  assert (H3 : 0 < pad_G Edge.pad_heavy + pad_Q Edge.pad_heavy)
    by (simpl; lra).
  assert (H4 : 0 <= pad_Sur_G Edge.pad_heavy + pad_Sur_Q Edge.pad_heavy)
    by (simpl; lra).
  assert (H5 : in_min_width Edge.form_rock
               <= sqrt ((pad_G Edge.pad_heavy + pad_Q Edge.pad_heavy)
                        / (in_target_utilisation Edge.form_rock
                           * in_q_allow Edge.form_rock))).
  { simpl.
    assert (E : (10800.0 + 0.0) / (0.90 * 3000.0) = 2 * 2) by lra.
    rewrite E, sqrt_square by lra. lra. }
  repeat (split; [assumption | ]).
  split; [exact solve_pad_heavy | ].
  exact (seed_is_too_narrow_with_self_weight
           2 Edge.form_rock Edge.pad_heavy Edge.solution_heavy
           H0 H1 H2 H3 H4 H5 solve_pad_heavy).
Defined.
